(** * The cache-guided trie resolver ([trie/resolver_stateful_cached.go])

    A shallow embedding of [ResolverStatefulCached]: the byte-string helper
    [nextSubtree], the key oracle [keyIsBefore], the request planner
    [PrepareResolveParams], the builder callback [Walker], the merged
    two-cursor walk [MultiWalk2] and the orchestrator [RebuildTrie].

    Conventions.
    - A Go [[]byte] is a [list byte]; where the code tests a slice against
      [nil] it is an [option (list byte)] with [None] for [nil].
    - A Go [int] is a [Z]; [len] is [Z.of_nat (length _)]; the 64-bit
      wrap-around of [+], [-] and [*] is written out with [wrap_int].
    - A run-time panic (index or slice bound out of range, nil dereference)
      is [None] of a pure helper and [Panic] of a call; a returned [error]
      is a value.
    - Slices are taken with capacity equal to length, which is what the
      planner's [make] and the store's keys provide. *)

From Stdlib Require Import ZArith NArith Lia.
From Stdlib Require Import Strings.Byte.
From stdpp Require Import base option list.

Local Open Scope Z_scope.

(** ** Bytes *)

Abbreviation bytes := (list byte).

#[global] Instance byte_eq_dec : EqDecision byte := Byte.byte_eq_dec.

(** The numeric value of a [uint8]. *)
Definition byte_val (b : byte) : Z := Z.of_N (Byte.to_N b).

(** Conversion to [uint8]: the low eight bits. *)
Definition byte_of_Z (z : Z) : byte :=
  match Byte.of_N (Z.to_N (z mod 256)) with
  | Some b => b
  | None => x00
  end.

(** [b++] on a [uint8]. *)
Definition byte_inc (b : byte) : byte := byte_of_Z (byte_val b + 1).

(** [a & m] on [uint8]. *)
Definition byte_and (a m : byte) : byte := byte_of_Z (Z.land (byte_val a) (byte_val m)).

(** [len(s)] as a Go [int]. *)
Definition len {A} (s : list A) : Z := Z.of_nat (length s).

(** [len] of a slice that may be [nil]. *)
Definition len_opt {A} (s : option (list A)) : Z :=
  match s with Some l => len l | None => 0 end.

(** [s[lo:hi]]; panics unless [0 <= lo <= hi <= len(s)]. *)
Definition slice {A} (s : list A) (lo hi : Z) : option (list A) :=
  if (0 <=? lo) && (lo <=? hi) && (hi <=? len s)
  then Some (take (Z.to_nat (hi - lo)) (drop (Z.to_nat lo) s))
  else None.

(** [s[:hi]] *)
Definition slice_to {A} (s : list A) (hi : Z) : option (list A) := slice s 0 hi.

(** [s[lo:]] *)
Definition slice_from {A} (s : list A) (lo : Z) : option (list A) := slice s lo (len s).

(** [s[i]]; panics out of range. *)
Definition index {A} (s : list A) (i : Z) : option A :=
  if (0 <=? i) then s !! Z.to_nat i else None.

(** [bytes.Compare]: lexicographic, a proper prefix is smaller;
    the result is -1, 0 or +1. *)
Fixpoint Compare (a b : bytes) : Z :=
  match a, b with
  | [], [] => 0
  | [], _ :: _ => -1
  | _ :: _, [] => 1
  | x :: a', y :: b' =>
      if byte_val x <? byte_val y then -1
      else if byte_val y <? byte_val x then 1
      else Compare a' b'
  end.

(** [bytes.Equal]: a [nil] slice equals an empty one. *)
Definition Equal (a b : option bytes) : bool :=
  bool_decide (default [] a = default [] b).

(** [common.HashLength].
    Modelled from the spec: the constant is declared in package [common],
    which is not part of the sources at hand; hashes are 32 bytes. *)
Definition HashLength : Z := 32.

(** ** [nextSubtree] *)

(** The loop [for i := len(r)-1; i >= 0; i--] of [nextSubtree], with [n = i+1]:
    the copy [r] is updated in place. *)
Fixpoint nextSubtree_loop (r : bytes) (n : nat) : option bytes :=
  match n with
  | O => None
  | S i =>
      match r !! i with
      | Some b =>
          if bool_decide (b ≠ xff)
          then Some (<[i := byte_inc b]> r)
          else nextSubtree_loop (<[i := x00]> r) i
      | None => None (* not reached: [i < len(r)] throughout *)
      end
  end.

(** [nextSubtree] does [[]byte++]; [None] is the [(nil, false)] of an overflow. *)
Definition nextSubtree (inp : bytes) : option bytes :=
  nextSubtree_loop inp (length inp).

(** ** [keyIsBefore] *)

(** [keyIsBefore(k1, k2)] returns the flag and the chosen key.
    The outer [option] is a panic of one of the slice expressions. *)
Definition keyIsBefore (k1 k2 : option bytes) : option (bool * option bytes) :=
  match k1, k2 with
  | None, _ => Some (false, k2)
  | Some _, None => Some (true, k1)
  | Some b1, Some b2 =>
      if len b1 <=? HashLength then
        let c := Compare b1 b2 in
        if (c =? -1) || (c =? 0) then Some (true, k1) else Some (false, k2)
      else
        p1 ← slice_to b1 HashLength;
        p2 ← slice_to b2 HashLength;
        let c := Compare p1 p2 in
        if c =? -1 then Some (true, k1)
        else if c =? 1 then Some (false, k2)
        else
          t1 ← slice_from b1 HashLength;
          t2 ← slice_from b2 (HashLength + 8);
          let c2 := Compare t1 t2 in
          if (c2 =? -1) || (c2 =? 0) then Some (true, k1) else Some (false, k2)
  end.


(** ** Machine integers *)

(** Go's [int] is 64 bits wide on the supported platforms: the result of an
    arithmetic operation is reduced to the signed range. *)
Definition wrap_int (z : Z) : Z := (z + 2 ^ 63) mod 2 ^ 64 - 2 ^ 63.

(** The conversion [uint(x)]. *)
Definition to_uint (z : Z) : Z := z mod 2 ^ 64.

(** ** Outcomes of a call *)

(** A call returns, panics, or (in the embedding only) exhausts the fuel that
    bounds the two [for] loops of the walk. *)
Inductive result (A : Type) : Type :=
  | Done (a : A)
  | Panic
  | OutOfFuel.
Arguments Done {A} a.
Arguments Panic {A}.
Arguments OutOfFuel {A}.

Definition bind {A B} (m : result A) (k : A -> result B) : result B :=
  match m with
  | Done a => k a
  | Panic => Panic
  | OutOfFuel => OutOfFuel
  end.

(** An operation that panics when its bounds check fails. *)
Definition must {A} (o : option A) : result A :=
  match o with Some a => Done a | None => Panic end.

Notation "'do' x <~ m ; k" := (bind m (fun x => k))
  (at level 10, x name, m at level 100, k at level 200).
Notation "'do' ' p <~ m ; k" := (bind m (fun x => let p := x in k))
  (at level 10, p pattern, m at level 100, k at level 200).

(** ** Errors *)

(** What a wrapping [fmt.Errorf("...: %w", err)] prepends. *)
Inductive wrap_context : Type :=
  | FailGenStructStep
  | FailDecodeForStorage
  | WakerErr
  | ErrorInFinaliseRoot (blockNr : Z).

Inductive error : Type :=
  | ErrUnexpectedResolution (accounts : bool) (startkeys : list bytes) (fixedbits : list Z)
  | ErrOnlyBoltSupported
  | ErrHistoricalNotSupported
  | ErrWrap (ctx : wrap_context) (e : error)
  | ErrCollaborator (code : Z).

(** ** Nibbles *)

(** [hi<<4 | lo] on [uint8]. *)
Definition byte_pack (hi lo : byte) : byte :=
  byte_of_Z (Z.lor (Z.shiftl (byte_val hi) 4 mod 256) (byte_val lo)).

(** [decodeNibbles(nibbles, dst)] writes the packed form of [nibbles] into the
    front of [dst] and leaves the rest of [dst] alone; it panics when [dst]
    is too short.
    Modelled from the spec: [decodeNibbles] lives in the trie package's
    encoding file, which is not part of the sources at hand. The spec's
    [pack] puts two nibbles in a byte, high nibble first; the partial-nibble
    prefixes that [Bytesmask] compares under [0xF0] have their last nibble
    in the high half of its byte, the low half keeping what [dst] held. *)
Fixpoint decodeNibbles (nibbles dst : bytes) : option bytes :=
  match nibbles with
  | [] => Some dst
  | [hi] =>
      match dst with
      | d :: dst' =>
          Some (byte_of_Z (Z.lor (Z.land (byte_val d) 15) (Z.shiftl (byte_val hi) 4 mod 256)) :: dst')
      | [] => None
      end
  | hi :: lo :: rest =>
      match dst with
      | _ :: dst' => cons (byte_pack hi lo) <$> decodeNibbles rest dst'
      | [] => None
      end
  end.

(** [DecompressNibbles(in, &out)].
    Modelled from the spec: the function is not part of the sources at hand;
    [unpack(b)] has length [2|b|], high nibble first. *)
Definition DecompressNibbles (inp : bytes) : bytes :=
  flat_map (fun b => [byte_of_Z (Z.land (Z.shiftr (byte_val b) 4) 15);
                      byte_of_Z (Z.land (byte_val b) 15)]) inp.

(** [ethdb.Bytesmask(fixedbits)].
    Modelled from the spec: the function is not part of the sources at hand;
    [byte_prefix_mask(bits)] is [((bits+7)/8, mask)] with [mask = 0xF0] when
    the prefix ends in the middle of a byte and [0xFF] otherwise. *)
Definition Bytesmask (fixedbits : Z) : Z * byte :=
  ((fixedbits + 7) / 8, if fixedbits mod 8 =? 4 then xf0 else xff).

(** The buckets a transaction is asked for ([dbutils], not in the sources). *)
Inductive BucketName : Type :=
  | AccountsBucket
  | StorageBucket
  | IntermediateTrieHashBucket.

#[global] Instance BucketName_eq_dec : EqDecision BucketName.
Proof. solve_decision. Defined.

(** ** Requests *)

(** The fields of [ResolveRequest] that the resolver reads and writes. *)
Record ResolveRequest : Type := {
  contract : bytes;
  resolveHex : bytes;
  resolvePos : Z;
  extResolvePos : Z
}.

Definition set_extResolvePos (req : ResolveRequest) (e : Z) : ResolveRequest :=
  {| contract := contract req; resolveHex := resolveHex req;
     resolvePos := resolvePos req; extResolvePos := e |}.

(** ** Collaborators *)

(** The payload handed to one step of the structural builder: a pointer to
    one of the resolver's [hashData], [leafData] and [accData]. *)
Record GenStructStepAccountData : Type := {
  ad_FieldSet : Z;
  ad_StorageSize : Z;
  ad_Balance : Z;
  ad_Nonce : Z;
  ad_Incarnation : Z
}.

Inductive GenStructStepData : Type :=
  | HashData (h : bytes)
  | LeafData (v : bytes)
  | AccountData (d : GenStructStepAccountData).

(** The packages the resolver calls into and whose code is not at hand:
    the resolve set, the hash builder with [GenStructStep], the account
    codec, and the hook that installs a resolved subtree. They are taken as
    an interface; nothing is assumed about them. *)
Class Collaborators : Type := {
  (* resolve set *)
  ResolveSet : Type;
  NewResolveSet : Z -> ResolveSet;
  AddHex : ResolveSet -> bytes -> ResolveSet;
  HashOnly : ResolveSet -> bytes -> bool;
  (* hash builder *)
  HashBuilder : Type;
  Node : Type;
  hb_Reset : HashBuilder -> HashBuilder;
  hb_hash : HashBuilder -> bytes -> HashBuilder * option error;
  hb_hasRoot : HashBuilder -> bool;
  hb_root : HashBuilder -> Node;
  hb_rootHash : HashBuilder -> bytes;
  BytesToHash : bytes -> bytes;
  (* [GenStructStep(hashOnly, curr, succ, hb, data, groups, false)]; the
     first argument is the receiver of the bound method [currentRs.HashOnly],
     which may be a nil pointer *)
  GenStructStep : option ResolveSet -> bytes -> bytes -> HashBuilder ->
                  GenStructStepData -> list Z -> result (HashBuilder * list Z * option error);
  (* accounts *)
  Account : Type;
  DecodeForStorage : Account -> bytes -> Account * option error;
  IsEmptyCodeHash : Account -> bool;
  IsEmptyRoot : Account -> bool;
  HasStorageSize : Account -> bool;
  StorageSize : Account -> Z;
  Balance : Account -> Z;
  Nonce : Account -> Z;
  Incarnation : Account -> Z;
  CodeHash : Account -> bytes;
  Root : Account -> bytes;
  AccountFieldSetNotAccount : Z;
  AccountFieldSetNotContract : Z;
  AccountFieldSetContract : Z;
  AccountFieldSetContractWithSize : Z;
  (* the hook and the state it closes over *)
  World : Type;
  hookFunction : World -> option ResolveRequest -> Node -> bytes -> World * option error
}.

(** The embedded key-value store (bolt), whose code is not at hand: a
    transaction gives buckets by name, a bucket gives a cursor, a cursor
    moves with [Seek], [SeekTo] and [Next] and returns [(nil, nil)] at the
    end. *)
Class KVStore : Type := {
  BoltDB : Type;
  Tx : Type;
  Bucket : Type;
  Cursor : Type;
  (* [db.Update] with the closure of [RebuildTrie], which creates a bucket *)
  Update_CreateBucketIfNotExists : BoltDB -> BucketName -> BoltDB * option error;
  (* [db.View]: the read transaction, or the error of opening it *)
  View : BoltDB -> Tx + error;
  tx_Bucket : Tx -> BucketName -> option Bucket;
  b_Cursor : Bucket -> Cursor;
  Seek : Cursor -> bytes -> Cursor * (option bytes * bytes);
  SeekTo : Cursor -> bytes -> Cursor * (option bytes * bytes);
  Next : Cursor -> Cursor * (option bytes * bytes)
}.

(** [ethdb.Database] as [RebuildTrie] inspects it: a nil interface, a value
    that has a bolt handle ([ethdb.HasBolt], which may hand out nil), a
    wrapper around another database ([ethdb.HasDb]), or something else.
    Both interfaces name their method [DB], so no type has both. *)
Inductive Database `{KVStore} : Type :=
  | NilDatabase
  | WithBolt (b : option BoltDB)
  | WithDb (inner : Database)
  | OtherDatabase.

Section Resolver.
Context `{Collaborators}.

(** ** The resolver *)

(** [ResolverStatefulCached] with the embedded [ResolverStateful].
    [currentReq] points into [requests], a slice that is never resized or
    reassigned here: the pointer is the index of its target.
    [currentRs] points to a resolve set that no one writes after planning:
    the pointer is its target. [world] and [hookLog] are the state the hook
    closes over and the record of its calls. *)
Record Resolver : Type := {
  rss : list ResolveSet;
  curr : bytes;
  succ : bytes;
  value : bytes;
  groups : list Z;
  reqIndices : list Z;
  hb : HashBuilder;
  topLevels : Z;
  currentReq : option Z;
  currentRs : option ResolveSet;
  keyIdx : Z;
  fieldSet : Z;
  a : Account;
  leafData : bytes;
  accData : GenStructStepAccountData;
  requests : list ResolveRequest;
  fromCache : bool;
  hashData : bytes;
  world : World;
  hookLog : list (option ResolveRequest * Node * bytes)
}.

(** Assignments to the resolver's fields. *)
Definition set_rss (v : list ResolveSet) (tr : Resolver) : Resolver :=
  {| rss := v; curr := curr tr; succ := succ tr; value := value tr; groups := groups tr;
     reqIndices := reqIndices tr; hb := hb tr; topLevels := topLevels tr;
     currentReq := currentReq tr; currentRs := currentRs tr; keyIdx := keyIdx tr;
     fieldSet := fieldSet tr; a := a tr; leafData := leafData tr; accData := accData tr;
     requests := requests tr; fromCache := fromCache tr; hashData := hashData tr;
     world := world tr; hookLog := hookLog tr |}.
Definition set_curr (v : bytes) (tr : Resolver) : Resolver :=
  {| rss := rss tr; curr := v; succ := succ tr; value := value tr; groups := groups tr;
     reqIndices := reqIndices tr; hb := hb tr; topLevels := topLevels tr;
     currentReq := currentReq tr; currentRs := currentRs tr; keyIdx := keyIdx tr;
     fieldSet := fieldSet tr; a := a tr; leafData := leafData tr; accData := accData tr;
     requests := requests tr; fromCache := fromCache tr; hashData := hashData tr;
     world := world tr; hookLog := hookLog tr |}.
Definition set_succ (v : bytes) (tr : Resolver) : Resolver :=
  {| rss := rss tr; curr := curr tr; succ := v; value := value tr; groups := groups tr;
     reqIndices := reqIndices tr; hb := hb tr; topLevels := topLevels tr;
     currentReq := currentReq tr; currentRs := currentRs tr; keyIdx := keyIdx tr;
     fieldSet := fieldSet tr; a := a tr; leafData := leafData tr; accData := accData tr;
     requests := requests tr; fromCache := fromCache tr; hashData := hashData tr;
     world := world tr; hookLog := hookLog tr |}.
Definition set_value (v : bytes) (tr : Resolver) : Resolver :=
  {| rss := rss tr; curr := curr tr; succ := succ tr; value := v; groups := groups tr;
     reqIndices := reqIndices tr; hb := hb tr; topLevels := topLevels tr;
     currentReq := currentReq tr; currentRs := currentRs tr; keyIdx := keyIdx tr;
     fieldSet := fieldSet tr; a := a tr; leafData := leafData tr; accData := accData tr;
     requests := requests tr; fromCache := fromCache tr; hashData := hashData tr;
     world := world tr; hookLog := hookLog tr |}.
Definition set_groups (v : list Z) (tr : Resolver) : Resolver :=
  {| rss := rss tr; curr := curr tr; succ := succ tr; value := value tr; groups := v;
     reqIndices := reqIndices tr; hb := hb tr; topLevels := topLevels tr;
     currentReq := currentReq tr; currentRs := currentRs tr; keyIdx := keyIdx tr;
     fieldSet := fieldSet tr; a := a tr; leafData := leafData tr; accData := accData tr;
     requests := requests tr; fromCache := fromCache tr; hashData := hashData tr;
     world := world tr; hookLog := hookLog tr |}.
Definition set_reqIndices (v : list Z) (tr : Resolver) : Resolver :=
  {| rss := rss tr; curr := curr tr; succ := succ tr; value := value tr;
     groups := groups tr; reqIndices := v; hb := hb tr; topLevels := topLevels tr;
     currentReq := currentReq tr; currentRs := currentRs tr; keyIdx := keyIdx tr;
     fieldSet := fieldSet tr; a := a tr; leafData := leafData tr; accData := accData tr;
     requests := requests tr; fromCache := fromCache tr; hashData := hashData tr;
     world := world tr; hookLog := hookLog tr |}.
Definition set_hb (v : HashBuilder) (tr : Resolver) : Resolver :=
  {| rss := rss tr; curr := curr tr; succ := succ tr; value := value tr;
     groups := groups tr; reqIndices := reqIndices tr; hb := v; topLevels := topLevels tr;
     currentReq := currentReq tr; currentRs := currentRs tr; keyIdx := keyIdx tr;
     fieldSet := fieldSet tr; a := a tr; leafData := leafData tr; accData := accData tr;
     requests := requests tr; fromCache := fromCache tr; hashData := hashData tr;
     world := world tr; hookLog := hookLog tr |}.
Definition set_currentReq (v : option Z) (tr : Resolver) : Resolver :=
  {| rss := rss tr; curr := curr tr; succ := succ tr; value := value tr;
     groups := groups tr; reqIndices := reqIndices tr; hb := hb tr;
     topLevels := topLevels tr; currentReq := v; currentRs := currentRs tr;
     keyIdx := keyIdx tr; fieldSet := fieldSet tr; a := a tr; leafData := leafData tr;
     accData := accData tr; requests := requests tr; fromCache := fromCache tr;
     hashData := hashData tr; world := world tr; hookLog := hookLog tr |}.
Definition set_currentRs (v : option ResolveSet) (tr : Resolver) : Resolver :=
  {| rss := rss tr; curr := curr tr; succ := succ tr; value := value tr;
     groups := groups tr; reqIndices := reqIndices tr; hb := hb tr;
     topLevels := topLevels tr; currentReq := currentReq tr; currentRs := v;
     keyIdx := keyIdx tr; fieldSet := fieldSet tr; a := a tr; leafData := leafData tr;
     accData := accData tr; requests := requests tr; fromCache := fromCache tr;
     hashData := hashData tr; world := world tr; hookLog := hookLog tr |}.
Definition set_keyIdx (v : Z) (tr : Resolver) : Resolver :=
  {| rss := rss tr; curr := curr tr; succ := succ tr; value := value tr;
     groups := groups tr; reqIndices := reqIndices tr; hb := hb tr;
     topLevels := topLevels tr; currentReq := currentReq tr; currentRs := currentRs tr;
     keyIdx := v; fieldSet := fieldSet tr; a := a tr; leafData := leafData tr;
     accData := accData tr; requests := requests tr; fromCache := fromCache tr;
     hashData := hashData tr; world := world tr; hookLog := hookLog tr |}.
Definition set_fieldSet (v : Z) (tr : Resolver) : Resolver :=
  {| rss := rss tr; curr := curr tr; succ := succ tr; value := value tr;
     groups := groups tr; reqIndices := reqIndices tr; hb := hb tr;
     topLevels := topLevels tr; currentReq := currentReq tr; currentRs := currentRs tr;
     keyIdx := keyIdx tr; fieldSet := v; a := a tr; leafData := leafData tr;
     accData := accData tr; requests := requests tr; fromCache := fromCache tr;
     hashData := hashData tr; world := world tr; hookLog := hookLog tr |}.
Definition set_a (v : Account) (tr : Resolver) : Resolver :=
  {| rss := rss tr; curr := curr tr; succ := succ tr; value := value tr;
     groups := groups tr; reqIndices := reqIndices tr; hb := hb tr;
     topLevels := topLevels tr; currentReq := currentReq tr; currentRs := currentRs tr;
     keyIdx := keyIdx tr; fieldSet := fieldSet tr; a := v; leafData := leafData tr;
     accData := accData tr; requests := requests tr; fromCache := fromCache tr;
     hashData := hashData tr; world := world tr; hookLog := hookLog tr |}.
Definition set_leafData (v : bytes) (tr : Resolver) : Resolver :=
  {| rss := rss tr; curr := curr tr; succ := succ tr; value := value tr;
     groups := groups tr; reqIndices := reqIndices tr; hb := hb tr;
     topLevels := topLevels tr; currentReq := currentReq tr; currentRs := currentRs tr;
     keyIdx := keyIdx tr; fieldSet := fieldSet tr; a := a tr; leafData := v;
     accData := accData tr; requests := requests tr; fromCache := fromCache tr;
     hashData := hashData tr; world := world tr; hookLog := hookLog tr |}.
Definition set_accData (v : GenStructStepAccountData) (tr : Resolver) : Resolver :=
  {| rss := rss tr; curr := curr tr; succ := succ tr; value := value tr;
     groups := groups tr; reqIndices := reqIndices tr; hb := hb tr;
     topLevels := topLevels tr; currentReq := currentReq tr; currentRs := currentRs tr;
     keyIdx := keyIdx tr; fieldSet := fieldSet tr; a := a tr; leafData := leafData tr;
     accData := v; requests := requests tr; fromCache := fromCache tr;
     hashData := hashData tr; world := world tr; hookLog := hookLog tr |}.
Definition set_requests (v : list ResolveRequest) (tr : Resolver) : Resolver :=
  {| rss := rss tr; curr := curr tr; succ := succ tr; value := value tr;
     groups := groups tr; reqIndices := reqIndices tr; hb := hb tr;
     topLevels := topLevels tr; currentReq := currentReq tr; currentRs := currentRs tr;
     keyIdx := keyIdx tr; fieldSet := fieldSet tr; a := a tr; leafData := leafData tr;
     accData := accData tr; requests := v; fromCache := fromCache tr;
     hashData := hashData tr; world := world tr; hookLog := hookLog tr |}.
Definition set_fromCache (v : bool) (tr : Resolver) : Resolver :=
  {| rss := rss tr; curr := curr tr; succ := succ tr; value := value tr;
     groups := groups tr; reqIndices := reqIndices tr; hb := hb tr;
     topLevels := topLevels tr; currentReq := currentReq tr; currentRs := currentRs tr;
     keyIdx := keyIdx tr; fieldSet := fieldSet tr; a := a tr; leafData := leafData tr;
     accData := accData tr; requests := requests tr; fromCache := v;
     hashData := hashData tr; world := world tr; hookLog := hookLog tr |}.
Definition set_hashData (v : bytes) (tr : Resolver) : Resolver :=
  {| rss := rss tr; curr := curr tr; succ := succ tr; value := value tr;
     groups := groups tr; reqIndices := reqIndices tr; hb := hb tr;
     topLevels := topLevels tr; currentReq := currentReq tr; currentRs := currentRs tr;
     keyIdx := keyIdx tr; fieldSet := fieldSet tr; a := a tr; leafData := leafData tr;
     accData := accData tr; requests := requests tr; fromCache := fromCache tr;
     hashData := v; world := world tr; hookLog := hookLog tr |}.
Definition set_world (v : World) (tr : Resolver) : Resolver :=
  {| rss := rss tr; curr := curr tr; succ := succ tr; value := value tr;
     groups := groups tr; reqIndices := reqIndices tr; hb := hb tr;
     topLevels := topLevels tr; currentReq := currentReq tr; currentRs := currentRs tr;
     keyIdx := keyIdx tr; fieldSet := fieldSet tr; a := a tr; leafData := leafData tr;
     accData := accData tr; requests := requests tr; fromCache := fromCache tr;
     hashData := hashData tr; world := v; hookLog := hookLog tr |}.
Definition set_hookLog (v : list (option ResolveRequest * Node * bytes)) (tr : Resolver) : Resolver :=
  {| rss := rss tr; curr := curr tr; succ := succ tr; value := value tr;
     groups := groups tr; reqIndices := reqIndices tr; hb := hb tr;
     topLevels := topLevels tr; currentReq := currentReq tr; currentRs := currentRs tr;
     keyIdx := keyIdx tr; fieldSet := fieldSet tr; a := a tr; leafData := leafData tr;
     accData := accData tr; requests := requests tr; fromCache := fromCache tr;
     hashData := hashData tr; world := world tr; hookLog := v |}.

(** ** [PrepareResolveParams] *)

(** What the loop of the planner has built so far: the two slices it
    returns, and the resolver's [reqIndices] and [rss]. *)
Record PlanAcc : Type := {
  pa_startkeys : list bytes;
  pa_fixedbits : list Z;
  pa_reqIndices : list Z;
  pa_rss : list ResolveSet
}.

(** The condition that opens a new range, with Go's short-circuit [||]:
    the two prefixes are sliced only when the contracts are equal. *)
Definition opensRange (prevReq : option ResolveRequest) (req : ResolveRequest) : result bool :=
  match prevReq with
  | None => Done true
  | Some p =>
      if negb (Equal (Some (contract req)) (Some (contract p))) then Done true
      else
        do h <~ must (slice_to (resolveHex req) (resolvePos req));
        do hp <~ must (slice_to (resolveHex p) (resolvePos p));
        Done (negb (Equal (Some h) (Some hp)))
  end.

(** [rs := tr.rss[len(tr.rss)-1]; rs.AddHex(hex)] *)
Definition addHexToLast (l : list ResolveSet) (hex : bytes) : option (list ResolveSet) :=
  match last l with
  | Some rs => Some (<[Nat.pred (length l) := AddHex rs hex]> l)
  | None => None
  end.

(** [for i, req := range tr.requests]: [todo] is what is left of the slice,
    [i] the index of its head. The requests are returned with the
    [extResolvePos] the loop has written through the pointers. [prevReq]
    is read for its [contract], [resolveHex] and [resolvePos], which are
    never written. *)
Fixpoint plan_loop (topLevels i : Z) (todo : list ResolveRequest)
    (prevReq : option ResolveRequest) (acc : PlanAcc)
    : result (list ResolveRequest * PlanAcc) :=
  match todo with
  | [] => Done ([], acc)
  | req :: rest =>
      do opens <~ opensRange prevReq req;
      if opens : bool then
        let pLen := len (contract req) in
        do hexPrefix <~ must (slice_to (resolveHex req) (resolvePos req));
        (* key := make([]byte, pLen+len(hexPrefix)); copy(key[:], req.contract) *)
        do tail <~ must (decodeNibbles hexPrefix (replicate (length hexPrefix) x00));
        let key := contract req ++ tail in
        let ext := wrap_int (resolvePos req + wrap_int (2 * pLen)) in
        let req' := set_extResolvePos req ext in
        let minLength :=
          if topLevels <=? resolvePos req then 0
          else wrap_int (topLevels - resolvePos req) in
        do hexSuffix <~ must (slice_from (resolveHex req) (resolvePos req));
        let acc' :=
          {| pa_startkeys := pa_startkeys acc ++ [key];
             pa_fixedbits := pa_fixedbits acc ++ [to_uint (wrap_int (4 * ext))];
             pa_reqIndices := pa_reqIndices acc ++ [i];
             pa_rss := pa_rss acc ++ [AddHex (NewResolveSet minLength) hexSuffix] |} in
        do '(rest', out) <~ plan_loop topLevels (i + 1) rest (Some req') acc';
        Done (req' :: rest', out)
      else
        do hexSuffix <~ must (slice_from (resolveHex req) (resolvePos req));
        do rss' <~ must (addHexToLast (pa_rss acc) hexSuffix);
        let acc' :=
          {| pa_startkeys := pa_startkeys acc; pa_fixedbits := pa_fixedbits acc;
             pa_reqIndices := pa_reqIndices acc; pa_rss := rss' |} in
        do '(rest', out) <~ plan_loop topLevels (i + 1) rest prevReq acc';
        Done (req :: rest', out)
  end.

(** [PrepareResolveParams] returns [(startkeys, fixedbits)] and leaves the
    ranges' resolve sets in [tr.rss]. *)
Definition PrepareResolveParams (tr : Resolver) : result (Resolver * (list bytes * list Z)) :=
  let tr := set_rss [] tr in
  if len (requests tr) =? 0 then Done (tr, ([], []))
  else
    do '(reqs, acc) <~ plan_loop (topLevels tr) 0 (requests tr) None
                        {| pa_startkeys := []; pa_fixedbits := [];
                           pa_reqIndices := reqIndices tr; pa_rss := rss tr |};
    let tr := set_rss (pa_rss acc) (set_reqIndices (pa_reqIndices acc) (set_requests reqs tr)) in
    do i0 <~ must (index (reqIndices tr) 0);
    do _ <~ must (index (requests tr) i0);
    do rs0 <~ must (index (rss tr) 0);
    Done (set_currentRs (Some rs0) (set_currentReq (Some i0) tr),
          (pa_startkeys acc, pa_fixedbits acc)).

(** ** The builder: [finaliseRoot] and [Walker] *)

(** The choice of payload that both [finaliseRoot] and [Walker] make before a
    step of the structural builder: the payload is stored in the resolver's
    own [hashData], [leafData] or [accData], and a pointer to it is passed. *)
Definition stepData (tr : Resolver) : Resolver * GenStructStepData :=
  if fromCache tr then
    let h := BytesToHash (value tr) in
    (set_hashData h tr, HashData h)
  else if fieldSet tr =? 0 then
    (set_leafData (value tr) tr, LeafData (value tr))
  else
    let d := {| ad_FieldSet := fieldSet tr;
                ad_StorageSize := StorageSize (a tr);
                ad_Balance := Balance (a tr);
                ad_Nonce := Nonce (a tr);
                ad_Incarnation := Incarnation (a tr) |} in
    (set_accData d tr, AccountData d).

(** [tr.groups, err = GenStructStep(tr.currentRs.HashOnly, curr, succ, tr.hb, data, tr.groups, false)] *)
Definition genStructStep (tr : Resolver) : result (Resolver * option error) :=
  let '(tr, data) := stepData tr in
  do '(hb', groups', err) <~
     GenStructStep (currentRs tr) (curr tr) (succ tr) (hb tr) data (groups tr);
  Done (set_groups groups' (set_hb hb' tr), err).

(** The request [tr.currentReq] points to, if any. *)
Definition currentRequest (tr : Resolver) : option ResolveRequest :=
  i ← currentReq tr; index (requests tr) i.

Definition finaliseRoot (tr : Resolver) : result (Resolver * option error) :=
  let tr := set_succ [] (set_curr (succ tr) tr) in
  do '(tr, err) <~ (if 0 <? len (curr tr) then genStructStep tr else Done (tr, None));
  match err with
  | Some e => Done (tr, Some e)
  | None =>
      if hb_hasRoot (hb tr) then
        let hbRoot := hb_root (hb tr) in
        let hbHash := hb_rootHash (hb tr) in
        let req := currentRequest tr in
        let '(w, err) := hookFunction (world tr) req hbRoot hbHash in
        Done (set_world w (set_hookLog (hookLog tr ++ [(req, hbRoot, hbHash)]) tr), err)
      else Done (tr, None)
  end.

(** Lines 238-248 of [Walker]: the range changes. *)
Definition Walker_switch (keyIdx' : Z) (tr : Resolver) : result (Resolver * option error) :=
  if negb (keyIdx' =? keyIdx tr) then
    do '(tr, err) <~ finaliseRoot tr;
    match err with
    | Some e => Done (tr, Some e)
    | None =>
        let tr := set_keyIdx keyIdx' (set_groups [] (set_hb (hb_Reset (hb tr)) tr)) in
        do ri <~ must (index (reqIndices tr) keyIdx');
        do _ <~ must (index (requests tr) ri);
        do rs <~ must (index (rss tr) keyIdx');
        Done (set_curr [] (set_currentRs (Some rs) (set_currentReq (Some ri) tr)), None)
    end
  else Done (tr, None).

(** Lines 250-261 of [Walker]: [curr := succ] and the new [succ]. *)
Definition Walker_advance (fromCache' : bool) (kAsNibbles : bytes) (tr : Resolver)
    : result Resolver :=
  let tr := set_succ [] (set_curr (succ tr) tr) in
  do req <~ must (currentRequest tr);
  let skip := extResolvePos req in
  let skip := if fromCache' && (HashLength * 2 <? skip) then wrap_int (skip - 8) else skip in
  do nibbles <~ must (slice_from kAsNibbles skip);
  let tr := set_succ nibbles tr in
  Done (if negb fromCache' then set_succ (succ tr ++ [x10]) tr else tr).

(** Lines 294-318 of [Walker]: remember a value that comes from the main bucket. *)
Definition Walker_remember (isAccount : bool) (v : bytes) (tr : Resolver)
    : Resolver * option error :=
  if isAccount then
    let '(acc, err) := DecodeForStorage (a tr) v in
    let tr := set_a acc tr in
    match err with
    | Some e => (tr, Some (ErrWrap FailDecodeForStorage e))
    | None =>
        if IsEmptyCodeHash (a tr) && IsEmptyRoot (a tr) then
          (set_fieldSet AccountFieldSetNotContract tr, None)
        else
          let tr :=
            if HasStorageSize (a tr)
            then set_fieldSet AccountFieldSetContractWithSize tr
            else set_fieldSet AccountFieldSetContract tr in
          let '(h, err) := hb_hash (hb tr) (CodeHash (a tr)) in
          let tr := set_hb h tr in
          match err with
          | Some e => (tr, Some e)
          | None =>
              let '(h, err) := hb_hash (hb tr) (Root (a tr)) in
              (set_hb h tr, err)
          end
    end
  else (set_fieldSet AccountFieldSetNotAccount (set_value v tr), None).

Definition Walker (isAccount fromCache' : bool) (keyIdx' : Z) (kAsNibbles v : bytes)
    (tr : Resolver) : result (Resolver * option error) :=
  do '(tr, err) <~ Walker_switch keyIdx' tr;
  match err with
  | Some e => Done (tr, Some e)
  | None =>
      if 0 <? len v then
        do tr <~ Walker_advance fromCache' kAsNibbles tr;
        do '(tr, err) <~ (if 0 <? len (curr tr) then genStructStep tr else Done (tr, None));
        match err with
        | Some e => Done (tr, Some (ErrWrap FailGenStructStep e))
        | None =>
            let tr := set_fromCache fromCache' tr in
            if fromCache' then Done (set_value v tr, None)
            else Done (Walker_remember isAccount v tr)
        end
      else Done (tr, None)
  end.

Definition WalkerAccounts (keyIdx' : Z) (k v : bytes) (fromCache' : bool) (tr : Resolver) :=
  Walker true fromCache' keyIdx' k v tr.

Definition WalkerStorage (keyIdx' : Z) (k v : bytes) (fromCache' : bool) (tr : Resolver) :=
  Walker false fromCache' keyIdx' k v tr.

End Resolver.

(** ** The merged walk: [MultiWalk2] *)

(** One call of the walker callback: [walker(keyIdx, k, v, fromCache)]. *)
Record Emission : Type := {
  em_keyIdx : Z;
  em_key : bytes;
  em_value : bytes;
  em_fromCache : bool
}.

Section Walk.
Context `{Collaborators} `{KVStore}.

(** The variables of [MultiWalk2] that live across iterations of its loop,
    the receiver [tr], and the record [w_calls] of the calls made to the
    walker so far. [minKey] and [fromCache] are assigned afresh in every
    iteration before they are read. *)
Record WalkState : Type := {
  w_tr : Resolver;
  w_c : Cursor;
  w_cache : Cursor;
  w_k : option bytes;
  w_v : bytes;
  w_cacheK : option bytes;
  w_cacheV : bytes;
  w_rangeIdx : Z;
  w_fixedbytes : Z;
  w_mask : byte;
  w_startkey : bytes;
  w_calls : list Emission
}.

Definition set_w_tr (x : Resolver) (s : WalkState) : WalkState :=
  {| w_tr := x; w_c := w_c s; w_cache := w_cache s; w_k := w_k s; w_v := w_v s;
     w_cacheK := w_cacheK s; w_cacheV := w_cacheV s; w_rangeIdx := w_rangeIdx s;
     w_fixedbytes := w_fixedbytes s; w_mask := w_mask s; w_startkey := w_startkey s;
     w_calls := w_calls s |}.

(** [k, v = <cursor c after a move>] *)
Definition set_main (m : Cursor * (option bytes * bytes)) (s : WalkState) : WalkState :=
  {| w_tr := w_tr s; w_c := m.1; w_cache := w_cache s; w_k := m.2.1; w_v := m.2.2;
     w_cacheK := w_cacheK s; w_cacheV := w_cacheV s; w_rangeIdx := w_rangeIdx s;
     w_fixedbytes := w_fixedbytes s; w_mask := w_mask s; w_startkey := w_startkey s;
     w_calls := w_calls s |}.

(** [cacheK, cacheV = <cursor cache after a move>] *)
Definition set_cache (m : Cursor * (option bytes * bytes)) (s : WalkState) : WalkState :=
  {| w_tr := w_tr s; w_c := w_c s; w_cache := m.1; w_k := w_k s; w_v := w_v s;
     w_cacheK := m.2.1; w_cacheV := m.2.2; w_rangeIdx := w_rangeIdx s;
     w_fixedbytes := w_fixedbytes s; w_mask := w_mask s; w_startkey := w_startkey s;
     w_calls := w_calls s |}.

(** [cacheK, cacheV = nil, nil]: the cursor itself stays where it is. *)
Definition drop_cache (s : WalkState) : WalkState :=
  set_cache (w_cache s, (None, [])) s.

(** [rangeIdx++] followed by the new [fixedbytes], [mask] and [startkey]. *)
Definition set_range (idx : Z) (fm : Z * byte) (startkey : bytes) (s : WalkState) : WalkState :=
  {| w_tr := w_tr s; w_c := w_c s; w_cache := w_cache s; w_k := w_k s; w_v := w_v s;
     w_cacheK := w_cacheK s; w_cacheV := w_cacheV s; w_rangeIdx := idx;
     w_fixedbytes := fm.1; w_mask := fm.2; w_startkey := startkey;
     w_calls := w_calls s |}.

Definition log_call (e : Emission) (s : WalkState) : WalkState :=
  {| w_tr := w_tr s; w_c := w_c s; w_cache := w_cache s; w_k := w_k s; w_v := w_v s;
     w_cacheK := w_cacheK s; w_cacheV := w_cacheV s; w_rangeIdx := w_rangeIdx s;
     w_fixedbytes := w_fixedbytes s; w_mask := w_mask s; w_startkey := w_startkey s;
     w_calls := w_calls s ++ [e] |}.

(** How an iteration of the outer loop ends: [continue] (or falling off the
    end of the body), or leaving [MultiWalk2]'s closure with [return err],
    [return nil] or [break]. *)
Inductive Flow : Type :=
  | Continue (s : WalkState)
  | Return (s : WalkState) (err : option error).

(** How the range adjustment ends: the loop [for cmp != 0] is left with
    the key to dispatch, or the closure returns [nil]. *)
Inductive AdjFlow : Type :=
  | Adjusted (s : WalkState) (fromCache' : bool) (minKey : option bytes)
  | AdjReturn (s : WalkState).

Section Loop.
Variable walker : Z -> bytes -> bytes -> bool -> Resolver -> result (Resolver * option error).
Variable isAccountBucket : bool.
Variables (startkeys : list bytes) (fixedbits : list Z).

(** [err := walker(rangeIdx, keyAsNibbles.B, v, fromCache)] *)
Definition callWalker (key : option bytes) (v : bytes) (fromCache' : bool) (s : WalkState)
    : result (WalkState * option error) :=
  let e := {| em_keyIdx := w_rangeIdx s; em_key := DecompressNibbles (default [] key);
              em_value := v; em_fromCache := fromCache' |} in
  do '(tr, err) <~ walker (em_keyIdx e) (em_key e) v fromCache' (w_tr s);
  Done (set_w_tr tr (log_call e s), err).

(** Lines 370-405: [for cmp != 0 { ... }]. The two [math.Min] are taken on
    lengths, on which the conversion to [float64] and back is exact. *)
Fixpoint adjustRange (fuel : nat) (s : WalkState) (fromCache' : bool) (minKey : option bytes)
    : result AdjFlow :=
  match fuel with
  | O => OutOfFuel
  | S fuel =>
      let minKeyIndex := Z.min (len_opt minKey) (w_fixedbytes s - 1) in
      let startKeyIndex := Z.min (len (w_startkey s)) (w_fixedbytes s - 1) in
      do mk <~ must (slice_to (default [] minKey) minKeyIndex);
      do sk <~ must (slice_to (w_startkey s) startKeyIndex);
      let cmp := Compare mk sk in
      let cmp := if (cmp =? 0) && (minKeyIndex =? len_opt minKey) then -1 else cmp in
      do cmp <~ (if cmp =? 0 then
                   do b1 <~ must (index (default [] minKey) minKeyIndex);
                   do b2 <~ must (index (w_startkey s) startKeyIndex);
                   let k1 := byte_val (byte_and b1 (w_mask s)) in
                   let k2 := byte_val (byte_and b2 (w_mask s)) in
                   Done (if k1 <? k2 then -1 else if k2 <? k1 then 1 else cmp)
                 else Done cmp);
      if cmp <? 0 then
        let s := set_main (SeekTo (w_c s) (w_startkey s)) s in
        let s := set_cache (SeekTo (w_cache s) (w_startkey s)) s in
        match w_k s, w_cacheK s with
        | None, None => Done (AdjReturn s)
        | _, _ =>
            do '(fc, mk') <~ must (keyIsBefore (w_cacheK s) (w_k s));
            adjustRange fuel s fc mk'
        end
      else if 0 <? cmp then
        let rangeIdx := wrap_int (w_rangeIdx s + 1) in
        if rangeIdx =? len startkeys then Done (AdjReturn (set_range rangeIdx (w_fixedbytes s, w_mask s) (w_startkey s) s))
        else
          do fb <~ must (index fixedbits rangeIdx);
          do sk' <~ must (index startkeys rangeIdx);
          adjustRange fuel (set_range rangeIdx (Bytesmask fb) sk' s) fromCache' minKey
      else Done (Adjusted s fromCache' minKey)
  end.

(** Lines 458-469: skip the subtree under [cacheK]. *)
Definition skipSubtree (canUseCache : bool) (s : WalkState) : Flow :=
  match nextSubtree (default [] (w_cacheK s)) with
  | None =>
      if canUseCache then Return s None
      else Continue (drop_cache s)
  | Some next =>
      let s := set_main (Seek (w_c s) next) s in
      let s := set_cache (Seek (w_cache s) next) s in
      Continue s
  end.

(** Lines 408-469: what is done with the chosen key. *)
Definition dispatch (s : WalkState) (fromCache' : bool) (minKey : option bytes) : result Flow :=
  if negb fromCache' then
    do '(s, err) <~ (if 0 <? len (w_v s) then callWalker minKey (w_v s) false s
                     else Done (s, None));
    match err with
    | Some e => Done (Return s (Some e))
    | None => Done (Continue (set_main (Next (w_c s)) s))
    end
  else
    let isSelfDestructedMarker := len (w_cacheV s) =? 0 in
    if isSelfDestructedMarker then
      do '(s, err) <~ (if isAccountBucket && (0 <? len (w_v s)) && Equal (w_k s) (w_cacheK s)
                       then callWalker minKey (w_v s) false s
                       else Done (s, None));
      match err with
      | Some e => Done (Return s (Some e))
      | None => Done (skipSubtree false s)
      end
    else
      do ri <~ must (index (reqIndices (w_tr s)) (w_rangeIdx s));
      do currentReq' <~ must (index (requests (w_tr s)) ri);
      do currentRs' <~ must (index (rss (w_tr s)) (w_rangeIdx s));
      let keyAsNibbles := DecompressNibbles (default [] minKey) in
      if len keyAsNibbles <? extResolvePos currentReq' then
        Done (Continue (set_cache (Next (w_cache s)) s))
      else
        do suffix <~ must (slice_from keyAsNibbles (extResolvePos currentReq'));
        let canUseCache := HashOnly currentRs' suffix in
        if negb canUseCache then
          Done (Continue (set_cache (Next (w_cache s)) s))
        else
          do '(s, err) <~ callWalker minKey (w_cacheV s) fromCache' s;
          match err with
          | Some e => Done (Return s (Some (ErrWrap WakerErr e)))
          | None => Done (skipSubtree canUseCache s)
          end.

(** [common.HashLength - 1] *)
Definition maxAccountKeyLen : Z := HashLength - 1.

(** One iteration of [for k != nil || cacheK != nil]. *)
Definition loopBody (fuel : nat) (s : WalkState) : result Flow :=
  if isAccountBucket && (maxAccountKeyLen <? len_opt (w_cacheK s)) then
    do prefix <~ must (slice_to (default [] (w_cacheK s)) maxAccountKeyLen);
    match nextSubtree prefix with
    | None => Done (Continue (drop_cache s))
    | Some next => Done (Continue (set_cache (SeekTo (w_cache s) next) s))
    end
  else
    do '(fc, minKey) <~ must (keyIsBefore (w_cacheK s) (w_k s));
    do adj <~ (if 0 <? w_fixedbytes s then adjustRange fuel s fc minKey
               else Done (Adjusted s fc minKey));
    match adj with
    | AdjReturn s => Done (Return s None)
    | Adjusted s fc minKey => dispatch s fc minKey
    end.

(** [for k != nil || cacheK != nil { ... }; return nil] *)
Fixpoint walkLoop (fuel : nat) (s : WalkState) : result (WalkState * option error) :=
  match fuel with
  | O => OutOfFuel
  | S fuel =>
      match w_k s, w_cacheK s with
      | None, None => Done (s, None)
      | _, _ =>
          do flow <~ loopBody fuel s;
          match flow with
          | Continue s => walkLoop fuel s
          | Return s err => Done (s, err)
          end
      end
  end.

End Loop.

(** [MultiWalk2] returns the error; the embedding also returns the resolver
    as the walker left it and the calls made to the walker. [blockNr] is
    not used by the function. *)
Definition MultiWalk2 (fuel : nat) (tr : Resolver) (db : BoltDB) (blockNr : Z)
    (bucket : BucketName) (startkeys : list bytes) (fixedbits : list Z)
    (walker : Z -> bytes -> bytes -> bool -> Resolver -> result (Resolver * option error))
    : result (Resolver * option error * list Emission) :=
  if len startkeys =? 0 then Done (tr, None, [])
  else
    let isAccountBucket := bool_decide (bucket = AccountsBucket) in
    let rangeIdx := 0 in
    do fb <~ must (index fixedbits rangeIdx);
    do startkey <~ must (index startkeys rangeIdx);
    match View db with
    | inr e => Done (tr, Some e, [])
    | inl tx =>
        match tx_Bucket tx IntermediateTrieHashBucket with
        | None => Done (tr, None, [])
        | Some cacheBucket =>
            let cache := b_Cursor cacheBucket in
            match tx_Bucket tx bucket with
            | None => Done (tr, None, [])
            | Some b =>
                let c := b_Cursor b in
                let m := Seek c startkey in
                let mc := Seek cache startkey in
                let s := {| w_tr := tr; w_c := m.1; w_cache := mc.1;
                            w_k := m.2.1; w_v := m.2.2;
                            w_cacheK := mc.2.1; w_cacheV := mc.2.2;
                            w_rangeIdx := rangeIdx;
                            w_fixedbytes := (Bytesmask fb).1; w_mask := (Bytesmask fb).2;
                            w_startkey := startkey; w_calls := [] |} in
                do '(s, err) <~ walkLoop walker isAccountBucket startkeys fixedbits fuel s;
                Done (w_tr s, err, w_calls s)
            end
        end
    end.

(** ** [RebuildTrie] *)

(** The bolt handle that [RebuildTrie] finds in [db], or nil. *)
Definition boltOf (db : Database) : option BoltDB :=
  match db with
  | WithBolt b => b
  | WithDb (WithBolt b) => b
  | _ => None
  end.

(** [RebuildTrie] returns the error; the embedding also returns the resolver
    and the store as the call left them. *)
Definition RebuildTrie (fuel : nat) (tr : Resolver) (db : Database) (blockNr : Z)
    (accounts historical : bool) : result (Resolver * option BoltDB * option error) :=
  do '(tr, (startkeys, fixedbits)) <~ PrepareResolveParams tr;
  match db with
  | NilDatabase => Done (tr, None, Some (ErrUnexpectedResolution accounts startkeys fixedbits))
  | _ =>
      match boltOf db with
      | None => Done (tr, None, Some ErrOnlyBoltSupported)
      | Some boltDb =>
          let '(boltDb, err) := Update_CreateBucketIfNotExists boltDb IntermediateTrieHashBucket in
          match err with
          | Some e => Done (tr, Some boltDb, Some e)
          | None =>
              if historical then Done (tr, Some boltDb, Some ErrHistoricalNotSupported)
              else
                do '(tr, err, _) <~
                   (if accounts
                    then MultiWalk2 fuel tr boltDb blockNr AccountsBucket startkeys fixedbits WalkerAccounts
                    else MultiWalk2 fuel tr boltDb blockNr StorageBucket startkeys fixedbits WalkerStorage);
                match err with
                | Some e => Done (tr, Some boltDb, Some e)
                | None =>
                    do '(tr, err) <~ finaliseRoot tr;
                    match err with
                    | Some e => Done (tr, Some boltDb, Some (ErrWrap (ErrorInFinaliseRoot blockNr) e))
                    | None => Done (tr, Some boltDb, None)
                    end
                end
          end
      end
  end.

End Walk.

(** * Specification-level notions *)

(** ** Byte strings as numbers *)

(** The big-endian value of a byte string. *)
Definition bytes_val (l : bytes) : Z :=
  fold_left (fun acc x => acc * 256 + byte_val x) l 0.

(** Every byte is [0xFF] (in particular, the string may be empty). *)
Definition allFF (b : bytes) : bool := forallb (fun x => bool_decide (x = xff)) b.


(** ** The planner, in the words of the design *)

(** [pack]: two nibbles per byte, high nibble first; a trailing single
    nibble is the high half of the last byte. *)
Fixpoint pack (nibbles : bytes) : bytes :=
  match nibbles with
  | [] => []
  | [hi] => [byte_pack hi x00]
  | hi :: lo :: rest => byte_pack hi lo :: pack rest
  end.

Section PlanSpec.
Context `{Collaborators}.

(** A range of the scan, with the request that opened it. *)
Record Range : Type := {
  startkey : bytes;
  fixed_bits : Z;
  range_extResolvePos : Z;
  resolve_set : ResolveSet;
  origin_request : Z
}.

(** [resolveHex[:resolvePos]] and [resolveHex[resolvePos:]] *)
Definition hexPrefix (r : ResolveRequest) : bytes :=
  take (Z.to_nat (resolvePos r)) (resolveHex r).

Definition hexSuffix (r : ResolveRequest) : bytes :=
  drop (Z.to_nat (resolvePos r)) (resolveHex r).

(** Two requests share the pair [(contract, resolveHex[:resolvePos])]. *)
Definition sameRange (p r : ResolveRequest) : bool :=
  bool_decide (contract r = contract p /\ hexPrefix r = hexPrefix p).

(** The range a request opens. The start key is the contract followed by
    the packed prefix, filled with zero bytes up to [|contract| + resolvePos]
    bytes in all. *)
Definition openRange (topLevels i : Z) (r : ResolveRequest) : Range :=
  let ext := resolvePos r + 2 * len (contract r) in
  {| startkey := contract r ++ pack (hexPrefix r)
                   ++ replicate (Z.to_nat (resolvePos r / 2)) x00;
     fixed_bits := 4 * ext;
     range_extResolvePos := ext;
     resolve_set := AddHex (NewResolveSet (Z.max 0 (topLevels - resolvePos r))) (hexSuffix r);
     origin_request := i |}.

(** A request that shares the pair adds its suffix to the range's set. *)
Definition mergeInto (r : ResolveRequest) (rg : Range) : Range :=
  {| startkey := startkey rg; fixed_bits := fixed_bits rg;
     range_extResolvePos := range_extResolvePos rg;
     resolve_set := AddHex (resolve_set rg) (hexSuffix r);
     origin_request := origin_request rg |}.

Definition mergeIntoLast (r : ResolveRequest) (ranges : list Range) : list Range :=
  match last ranges with
  | Some rg => <[Nat.pred (length ranges) := mergeInto r rg]> ranges
  | None => ranges
  end.

(** The ranges of a request list: a request that shares the pair with the
    request just before it is merged into the preceding range, any other
    request opens a new range. [prev] is the adjacent request, [i] the index
    of the head of [reqs]. *)
Fixpoint planRanges (topLevels i : Z) (prev : option ResolveRequest)
    (reqs : list ResolveRequest) (ranges : list Range) : list Range :=
  match reqs with
  | [] => ranges
  | r :: rest =>
      let shares := match prev with Some p => sameRange p r | None => false end in
      planRanges topLevels (i + 1) (Some r) rest
        (if shares then mergeIntoLast r ranges else ranges ++ [openRange topLevels i r])
  end.

(** A request the planner can slice, whose positions fit an [int]. *)
Definition wf_request (r : ResolveRequest) : Prop :=
  0 <= resolvePos r <= len (resolveHex r)
  /\ 4 * (resolvePos r + 2 * len (contract r)) < 2 ^ 63.

(** The values of an [int]. *)
Definition is_int (z : Z) : Prop := - 2 ^ 63 <= z < 2 ^ 63.

(** [tr.reqIndices] is empty, as the constructor leaves it, or starts with
    an index into [tr.requests]. *)
Definition first_index_ok (tr : Resolver) : Prop :=
  match reqIndices tr with
  | [] => True
  | i0 :: _ => 0 <= i0 < len (requests tr)
  end.

(** The request the planner compared with and the adjacent request agree on
    the pair. *)
Definition prev_rel (pc ps : option ResolveRequest) : Prop :=
  match pc, ps with
  | None, None => True
  | Some c, Some s =>
      contract c = contract s /\ hexPrefix c = hexPrefix s
      /\ 0 <= resolvePos c <= len (resolveHex c)
  | _, _ => False
  end.

(** The planner's slices hold the ranges built so far. *)
Definition acc_rel (I0 : list Z) (acc : PlanAcc) (ranges : list Range) : Prop :=
  pa_startkeys acc = startkey <$> ranges
  /\ pa_fixedbits acc = fixed_bits <$> ranges
  /\ pa_rss acc = resolve_set <$> ranges
  /\ pa_reqIndices acc = I0 ++ (origin_request <$> ranges).

(** Planning leaves a request as it was, up to [extResolvePos]. *)
Definition same_shape (r r' : ResolveRequest) : Prop :=
  contract r' = contract r /\ resolveHex r' = resolveHex r /\ resolvePos r' = resolvePos r.

Definition origin_ext (rg : Range) : Z * Z := (origin_request rg, range_extResolvePos rg).

(** The request at index [p.1], counted from [i], carries [extResolvePos = p.2]. *)
Definition ext_written (i : Z) (todo' : list ResolveRequest) (p : Z * Z) : Prop :=
  exists k r', 0 <= k /\ p.1 = i + k /\ todo' !! Z.to_nat k = Some r' /\ extResolvePos r' = p.2.

(** Two states of the planner's loop that differ in [reqIndices] only. *)
Definition plan_same (x y : PlanAcc) : Prop :=
  pa_startkeys x = pa_startkeys y /\ pa_fixedbits x = pa_fixedbits y /\ pa_rss x = pa_rss y.

(** ** The builder *)

(** How many leading nibbles [Walker] leaves out of [succ]. *)
Definition walkerSkip (fromCache' : bool) (req : ResolveRequest) : Z :=
  if fromCache' && (2 * HashLength <? extResolvePos req)
  then extResolvePos req - 8
  else extResolvePos req.

(** The structural builder returns from every step. *)
Definition stepReturns : Prop :=
  forall rs c s h d g, exists r, GenStructStep rs c s h d g = Done r.

(** What planning leaves for the walk to read. *)
Definition plan_of (tr : Resolver) : list Z * list ResolveRequest * list ResolveSet :=
  (reqIndices tr, requests tr, rss tr).

(** A call of the walker with [fromCache = true] hands over a key whose
    nibbles past [extResolvePos] the range's resolve set lets be hashed. *)
Definition cache_hit_ok (P : list Z * list ResolveRequest * list ResolveSet) (e : Emission)
    : Prop :=
  em_fromCache e = true ->
  exists ri req rs suffix,
    index P.1.1 (em_keyIdx e) = Some ri
    /\ index P.1.2 ri = Some req
    /\ index P.2 (em_keyIdx e) = Some rs
    /\ slice_from (em_key e) (extResolvePos req) = Some suffix
    /\ HashOnly rs suffix = true.

(** A walker callback that leaves the plan alone. *)
Definition keeps_plan
    (walker : Z -> bytes -> bytes -> bool -> Resolver -> result (Resolver * option error))
    : Prop :=
  forall idx k v fc tr tr' err,
    walker idx k v fc tr = Done (tr', err) -> plan_of tr' = plan_of tr.

End PlanSpec.

(** ** The walk *)

Section WalkSpec.
Context `{Collaborators} `{KVStore}.

Definition walk_inv (P : list Z * list ResolveRequest * list ResolveSet) (s : WalkState) : Prop :=
  plan_of (w_tr s) = P /\ Forall (cache_hit_ok P) (w_calls s).

Definition adj_state (r : AdjFlow) : WalkState :=
  match r with Adjusted s _ _ => s | AdjReturn s => s end.

Definition flow_state (f : Flow) : WalkState :=
  match f with Continue s => s | Return s _ => s end.

(** The condition under which a tombstone still hands the main record to
    the walker. *)
Definition tombstone_emits (isAccountBucket : bool) (s : WalkState) : bool :=
  isAccountBucket && (0 <? len (w_v s)) && Equal (w_k s) (w_cacheK s).

(** The call that hands over the main record. *)
Definition live_record (s : WalkState) (minKey : option bytes) : Emission :=
  {| em_keyIdx := w_rangeIdx s; em_key := DecompressNibbles (default [] minKey);
     em_value := w_v s; em_fromCache := false |}.

End WalkSpec.

(** * An in-memory implementation of the interfaces *)

(** Modelled from the spec: the resolve set of the design's section 4.3,
    whose code is not part of the sources at hand. It keeps [minLength] and
    the added fragments; [hash_only(p)] is true iff no added fragment is a
    prefix of [p] and [|p| >= minLength]. *)
Record SpecResolveSet : Type := {
  rs_minLength : Z;
  rs_hexes : list bytes
}.

Definition spec_HashOnly (rs : SpecResolveSet) (p : bytes) : bool :=
  (rs_minLength rs <=? len p)
  && forallb (fun h => negb (bool_decide (take (length h) p = h))) (rs_hexes rs).

(** A builder that only records what it is given: the hash builder is the
    list of keys and hashes pushed to it, an account is its encoding, the
    hook counts its calls. *)
#[global] Instance MemCollaborators : Collaborators := {|
  ResolveSet := SpecResolveSet;
  NewResolveSet := fun m => {| rs_minLength := m; rs_hexes := [] |};
  AddHex := fun rs h => {| rs_minLength := rs_minLength rs; rs_hexes := rs_hexes rs ++ [h] |};
  HashOnly := spec_HashOnly;
  HashBuilder := list bytes;
  Node := list bytes;
  hb_Reset := fun _ => [];
  hb_hash := fun h b => (h ++ [b], None);
  hb_hasRoot := fun h => bool_decide (h <> []);
  hb_root := fun h => h;
  hb_rootHash := fun h => default [] (last h);
  BytesToHash := fun b => b;
  GenStructStep := fun _ c _ h _ g => Done (h ++ [c], g, None);
  Account := bytes;
  DecodeForStorage := fun _ v => (v, None);
  IsEmptyCodeHash := fun _ => true;
  IsEmptyRoot := fun _ => true;
  HasStorageSize := fun _ => false;
  StorageSize := fun _ => 0;
  Balance := fun _ => 0;
  Nonce := fun _ => 0;
  Incarnation := fun _ => 0;
  CodeHash := fun _ => [];
  Root := fun _ => [];
  AccountFieldSetNotAccount := 0;
  AccountFieldSetNotContract := 3;
  AccountFieldSetContract := 15;
  AccountFieldSetContractWithSize := 31;
  World := nat;
  hookFunction := fun w _ _ _ => (S w, None)
|}.

(** Modelled from the spec: the cursor contract of the design's section 6,
    whose code (bolt) is not part of the sources at hand. A bucket is its
    entries in ascending key order; [Seek] moves to the first entry whose key
    is not below the sought one, [SeekTo] is [Seek], [Next] moves one entry
    on, and the end is [(nil, nil)]. *)
Record MemCursor : Type := {
  cur_entries : list (bytes * bytes);
  cur_pos : nat
}.

Definition cur_at (c : MemCursor) : MemCursor * (option bytes * bytes) :=
  match cur_entries c !! cur_pos c with
  | Some (k, v) => (c, (Some k, v))
  | None => (c, (None, []))
  end.

Fixpoint seek_pos (entries : list (bytes * bytes)) (key : bytes) : nat :=
  match entries with
  | [] => O
  | (k, _) :: rest => if Compare k key <? 0 then S (seek_pos rest key) else O
  end.

Definition mem_Seek (c : MemCursor) (key : bytes) : MemCursor * (option bytes * bytes) :=
  cur_at {| cur_entries := cur_entries c; cur_pos := seek_pos (cur_entries c) key |}.

Definition mem_Next (c : MemCursor) : MemCursor * (option bytes * bytes) :=
  cur_at {| cur_entries := cur_entries c; cur_pos := S (cur_pos c) |}.

(** A store is its buckets; a missing bucket is [None]. *)
Definition MemDB : Type := BucketName -> option (list (bytes * bytes)).

#[global] Instance MemStore : KVStore := {|
  BoltDB := MemDB;
  Tx := MemDB;
  Bucket := list (bytes * bytes);
  Cursor := MemCursor;
  Update_CreateBucketIfNotExists := fun db name =>
    (fun n => if decide (n = name) then Some (default [] (db n)) else db n, None);
  View := fun db => inl db;
  tx_Bucket := fun tx name => tx name;
  b_Cursor := fun b => {| cur_entries := b; cur_pos := O |};
  Seek := mem_Seek;
  SeekTo := mem_Seek;
  Next := mem_Next
|}.

(** A resolver as [NewResolverStatefulCached] leaves it. *)
Definition newResolver (topLevels' : Z) (reqs : list ResolveRequest) : Resolver :=
  {| rss := []; curr := []; succ := []; value := []; groups := []; reqIndices := [];
     hb := []; topLevels := topLevels'; currentReq := None; currentRs := None;
     keyIdx := 0; fieldSet := 0; a := [];
     leafData := [];
     accData := {| ad_FieldSet := 0; ad_StorageSize := 0; ad_Balance := 0;
                   ad_Nonce := 0; ad_Incarnation := 0 |};
     requests := reqs; fromCache := false; hashData := [];
     world := O; hookLog := [] |}.

Definition mkRequest (c hex : bytes) (pos : Z) : ResolveRequest :=
  {| contract := c; resolveHex := hex; resolvePos := pos; extResolvePos := 0 |}.

(** The resolver after planning, as [RebuildTrie] hands it to the walk. *)
Definition planned (tr : Resolver) : Resolver :=
  match PrepareResolveParams tr with
  | Done (tr', _) => tr'
  | _ => tr
  end.

(** The state in which [MultiWalk2] enters its loop. *)
Definition enterLoop (tr : Resolver) (cacheBucket mainBucket : list (bytes * bytes))
    (startkey' : bytes) (fixedbits : Z) : WalkState :=
  let m := Seek (b_Cursor mainBucket) startkey' in
  let mc := Seek (b_Cursor cacheBucket) startkey' in
  {| w_tr := tr; w_c := m.1; w_cache := mc.1; w_k := m.2.1; w_v := m.2.2;
     w_cacheK := mc.2.1; w_cacheV := mc.2.2; w_rangeIdx := 0;
     w_fixedbytes := (Bytesmask fixedbits).1; w_mask := (Bytesmask fixedbits).2;
     w_startkey := startkey'; w_calls := [] |}.

(** ** Concrete inputs *)

(** One request for the subtree under the nibbles 1, 2. *)
Definition tr_prefix12 : Resolver := newResolver 0 [mkRequest [] [x01; x02; x03] 2].

(** Three requests: the first two share the prefix 1, 2; the third names a
    contract. *)
Definition tr_three : Resolver :=
  newResolver 1 [mkRequest [] [x01; x02; x03] 2; mkRequest [] [x01; x02; x04] 2;
                 mkRequest [xaa] [x01; x02] 1].

(** A request for the whole trie that keeps the top five levels. *)
Definition tr_top5 : Resolver := planned (newResolver 5 [mkRequest [] [x00; x00; x00] 0]).

(** The accounts walk meets the tombstone [00], which has the child [00 05]
    in the cache and the record [00 01] below it in the main bucket. *)
Definition s_tombstone00 : WalkState :=
  enterLoop tr_top5 [([x00], []); ([x00; x05], [xaa])] [([x00; x01], [x01])] [] 0.

(** The accounts walk meets the tombstone [FF], the last key of its length. *)
Definition s_tombstoneFF : WalkState :=
  enterLoop tr_top5 [([xff], [])] [([xff; x01], [x01])] [] 0.

(** The accounts walk meets the tombstone [07] of a live record [07]. *)
Definition s_tombstone07 : WalkState :=
  enterLoop tr_top5 [([x07], [])] [([x07], [x01]); ([x07; x01], [x01]); ([x09], [x02])] [] 0.

(** A request for the whole trie; a store with one account, and with or
    without the cache bucket. *)
Definition tr_whole : Resolver := planned (newResolver 0 [mkRequest [] [] 0]).

Definition db_one_account (cache : option (list (bytes * bytes))) : MemDB := fun n =>
  match n with
  | AccountsBucket => Some [([x01], [x02])]
  | StorageBucket => None
  | IntermediateTrieHashBucket => cache
  end.

(** A store whose cache holds the hash of the subtree under the nibbles
    1, 2, 3, 3, asked about by a request for the path 1, 2, 9. *)
Definition tr_path129 : Resolver := planned (newResolver 0 [mkRequest [] [x01; x02; x09] 2]).

Definition db_cached : MemDB := fun n =>
  match n with
  | AccountsBucket => Some [([x12; x30], [x01]); ([x12; x34], [x02]); ([x20], [x03])]
  | StorageBucket => None
  | IntermediateTrieHashBucket => Some [([x12; x33], [xaa])]
  end.

(** The walk of [tr_prefix12] at the cache entry [12 33], which the request's
    own path runs through. *)
Definition s_on_path : WalkState :=
  enterLoop (planned tr_prefix12) [([x12; x33], [xaa])] [([x12; x34], [x02])] [x12; x00] 8.

(** A storage request under a 40-byte contract prefix. *)
Definition tr_storage : Resolver :=
  planned (newResolver 0 [mkRequest (replicate 40 x11) [x01; x02] 0]).

(** * Lemmas *)

(** ** Bytes and their order *)

Lemma byte_val_range b : 0 <= byte_val b < 256.
Proof. unfold byte_val. pose proof (Byte.to_N_bounded b). lia. Qed.

Lemma byte_val_inj a b : byte_val a = byte_val b -> a = b.
Proof.
  unfold byte_val. intros E. apply N2Z.inj in E.
  pose proof (Byte.of_to_N a) as Ha. rewrite E, Byte.of_to_N in Ha. congruence.
Qed.

Lemma byte_val_of_Z z : 0 <= z < 256 -> byte_val (byte_of_Z z) = z.
Proof.
  intros Hz. unfold byte_of_Z, byte_val. rewrite Z.mod_small by lia.
  destruct (Byte.of_N (Z.to_N z)) as [b|] eqn:E.
  - apply Byte.to_of_N in E. rewrite E. lia.
  - apply Byte.of_N_None_iff in E. lia.
Qed.

Lemma byte_val_xff b : b <> xff <-> byte_val b < 255.
Proof.
  split.
  - intros Hne. pose proof (byte_val_range b).
    destruct (Z.eq_dec (byte_val b) 255) as [E|]; [|lia].
    exfalso. apply Hne. apply byte_val_inj. rewrite E. reflexivity.
  - intros Hlt ->. vm_compute in Hlt. discriminate.
Qed.

Lemma byte_val_inc b : b <> xff -> byte_val (byte_inc b) = byte_val b + 1.
Proof.
  intros Hb. apply byte_val_xff in Hb. pose proof (byte_val_range b).
  unfold byte_inc. apply byte_val_of_Z. lia.
Qed.

Lemma fold_val_shift l acc :
  fold_left (fun acc x => acc * 256 + byte_val x) l acc
  = acc * 256 ^ len l + bytes_val l.
Proof.
  unfold bytes_val, len. revert acc. induction l as [|x l IH]; intros acc.
  - simpl. lia.
  - cbn [fold_left length]. rewrite IH, (IH (0 * 256 + byte_val x)).
    rewrite Nat2Z.inj_succ, Z.pow_succ_r by lia. lia.
Qed.

Lemma bytes_val_cons x l : bytes_val (x :: l) = byte_val x * 256 ^ len l + bytes_val l.
Proof. unfold bytes_val at 1. cbn [fold_left]. rewrite fold_val_shift. lia. Qed.

Lemma bytes_val_snoc l x : bytes_val (l ++ [x]) = bytes_val l * 256 + byte_val x.
Proof. unfold bytes_val. rewrite fold_left_app. reflexivity. Qed.

Lemma bytes_val_bound l : 0 <= bytes_val l < 256 ^ len l.
Proof.
  induction l as [|x l IH].
  - unfold bytes_val, len. simpl. lia.
  - rewrite bytes_val_cons. pose proof (byte_val_range x).
    unfold len in *. cbn [length]. rewrite Nat2Z.inj_succ, Z.pow_succ_r by lia. nia.
Qed.

Lemma Compare_range a b : Compare a b = -1 \/ Compare a b = 0 \/ Compare a b = 1.
Proof.
  revert b. induction a as [|x a IH]; intros [|y b]; simpl; auto.
  destruct (byte_val x <? byte_val y); auto.
  destruct (byte_val y <? byte_val x); auto.
Qed.


Lemma Compare_eq a b : Compare a b = 0 <-> a = b.
Proof.
  revert b. induction a as [|x a IH]; intros [|y b]; simpl; try (split; (discriminate || reflexivity)).
  destruct (Z.ltb_spec (byte_val x) (byte_val y)).
  { split; [discriminate|]. intros [= -> _]. lia. }
  destruct (Z.ltb_spec (byte_val y) (byte_val x)).
  { split; [discriminate|]. intros [= -> _]. lia. }
  rewrite IH. assert (x = y) by (apply byte_val_inj; lia). subst.
  split; [intros ->; reflexivity | intros [= ->]; reflexivity].
Qed.

Lemma Compare_refl a : Compare a a = 0.
Proof. apply Compare_eq. reflexivity. Qed.

Lemma Compare_val a b :
  length a = length b -> Compare a b = Z.sgn (bytes_val a - bytes_val b).
Proof.
  revert b. induction a as [|x a IH]; intros [|y b] Hlen; try discriminate.
  - reflexivity.
  - injection Hlen as Hlen. rewrite !bytes_val_cons. cbn [Compare].
    pose proof (bytes_val_bound a) as Ha. pose proof (bytes_val_bound b) as Hb.
    assert (len a = len b) as E by (unfold len; lia). rewrite E in *.
    assert (0 < 256 ^ len b) by (apply Z.pow_pos_nonneg; unfold len; lia).
    destruct (Z.ltb_spec (byte_val x) (byte_val y)).
    { symmetry. apply Z.sgn_neg. nia. }
    destruct (Z.ltb_spec (byte_val y) (byte_val x)).
    { symmetry. apply Z.sgn_pos. nia. }
    rewrite IH by assumption. f_equal. assert (byte_val x = byte_val y) by lia. nia.
Qed.

Lemma allFF_Forall p : allFF p = true <-> Forall (fun x => x = xff) p.
Proof.
  unfold allFF. rewrite forallb_forall, Forall_forall.
  split; intros Hp x Hx.
  - apply list_elem_of_In in Hx. apply Hp in Hx. by apply bool_decide_eq_true in Hx.
  - apply bool_decide_eq_true. apply Hp. by apply list_elem_of_In.
Qed.

Lemma allFF_snoc p x : allFF (p ++ [x]) = allFF p && bool_decide (x = xff).
Proof. unfold allFF. rewrite forallb_app. simpl. by rewrite andb_true_r. Qed.

(** ** [nextSubtree] *)

Lemma insert_middle_eq (p s : bytes) x y :
  <[length p := y]> (p ++ x :: s) = p ++ y :: s.
Proof.
  rewrite insert_app_r_alt by lia. by rewrite Nat.sub_diag.
Qed.

Lemma nextSubtree_loop_step p x s :
  nextSubtree_loop ((p ++ [x]) ++ s) (length (p ++ [x])) =
  if bool_decide (x ≠ xff) then Some ((p ++ [byte_inc x]) ++ s)
  else nextSubtree_loop (p ++ x00 :: s) (length p).
Proof.
  rewrite length_app, Nat.add_1_r. cbn [nextSubtree_loop].
  rewrite <- !app_assoc. cbn [app].
  rewrite list_lookup_middle by reflexivity.
  by rewrite !insert_middle_eq.
Qed.

Lemma nextSubtree_loop_overflow p s :
  allFF p = true -> nextSubtree_loop (p ++ s) (length p) = None.
Proof.
  revert s. induction p as [|x p IH] using rev_ind; intros s Hp; [reflexivity|].
  rewrite allFF_snoc in Hp. apply andb_true_iff in Hp as [Hp Hx].
  apply bool_decide_eq_true in Hx. subst x.
  rewrite nextSubtree_loop_step.
  rewrite bool_decide_eq_false_2 by (intros Hn; by apply Hn).
  by apply IH.
Qed.

Lemma nextSubtree_loop_succ p s :
  allFF p = false ->
  exists p', nextSubtree_loop (p ++ s) (length p) = Some (p' ++ s)
             /\ length p' = length p /\ bytes_val p' = bytes_val p + 1.
Proof.
  revert s. induction p as [|x p IH] using rev_ind; intros s Hp; [discriminate|].
  rewrite allFF_snoc in Hp. rewrite nextSubtree_loop_step.
  destruct (decide (x = xff)) as [->|Hx].
  - rewrite bool_decide_eq_false_2 by (intros Hn; by apply Hn).
    rewrite bool_decide_eq_true_2, andb_true_r in Hp by reflexivity.
    destruct (IH (x00 :: s) Hp) as (p' & Hrun & Hlen & Hval).
    exists (p' ++ [x00]). rewrite Hrun, <- app_assoc. split; [reflexivity|].
    rewrite !length_app, Hlen. split; [reflexivity|].
    rewrite !bytes_val_snoc, Hval. change (byte_val x00) with 0.
    change (byte_val xff) with 255. lia.
  - rewrite bool_decide_eq_true_2 by assumption.
    exists (p ++ [byte_inc x]). split; [reflexivity|].
    rewrite !length_app. split; [reflexivity|].
    rewrite !bytes_val_snoc, byte_val_inc by assumption. lia.
Qed.

(** C3. For a byte string [b] that is not all [0xFF], [nextSubtree b] returns
    [(r, true)] where [r] has the length of [b], is greater than [b], and no
    byte string of that length lies strictly between [b] and [r]; for an
    all-[0xFF] string (the empty one included) it returns [(nil, false)]. *)
Theorem nextSubtree_immediate_successor (b : bytes) :
  if allFF b then nextSubtree b = None
  else exists r, nextSubtree b = Some r
       /\ length r = length b
       /\ Compare r b = 1
       /\ forall c, length c = length b -> ~ (Compare b c = -1 /\ Compare c r = -1).
Proof.
  unfold nextSubtree. destruct (allFF b) eqn:Hb.
  - rewrite <- (app_nil_r b) at 1. by apply nextSubtree_loop_overflow.
  - destruct (nextSubtree_loop_succ b [] Hb) as (r & Hrun & Hlen & Hval).
    rewrite !app_nil_r in Hrun. exists r. split; [assumption|]. split; [assumption|].
    split.
    + rewrite Compare_val by assumption. apply Z.sgn_pos. lia.
    + intros c Hc [H1 H2].
      rewrite Compare_val in H1 by congruence.
      rewrite Compare_val in H2 by congruence.
      apply Z.sgn_neg_iff in H1. apply Z.sgn_neg_iff in H2. lia.
Qed.

(** ** Slices and [keyIsBefore] *)

Lemma slice_Some {A} (s : list A) lo hi :
  0 <= lo <= hi -> hi <= len s ->
  slice s lo hi = Some (take (Z.to_nat (hi - lo)) (drop (Z.to_nat lo) s)).
Proof.
  intros [H1 H2] H3. unfold slice.
  destruct (Z.leb_spec 0 lo), (Z.leb_spec lo hi), (Z.leb_spec hi (len s)); try lia.
  reflexivity.
Qed.

Lemma slice_None {A} (s : list A) lo hi :
  ~ (0 <= lo <= hi /\ hi <= len s) -> slice s lo hi = None.
Proof.
  intros Hn. unfold slice.
  destruct (Z.leb_spec 0 lo), (Z.leb_spec lo hi), (Z.leb_spec hi (len s)); try reflexivity.
  exfalso. apply Hn. lia.
Qed.

Lemma slice_to_Some {A} (s : list A) hi :
  0 <= hi <= len s -> slice_to s hi = Some (take (Z.to_nat hi) s).
Proof.
  intros Hh. unfold slice_to. rewrite slice_Some by lia.
  by rewrite Z.sub_0_r, drop_0.
Qed.

Lemma slice_to_None {A} (s : list A) hi :
  ~ (0 <= hi <= len s) -> slice_to s hi = None.
Proof. intros Hn. apply slice_None. lia. Qed.

Lemma slice_from_Some {A} (s : list A) lo :
  0 <= lo <= len s -> slice_from s lo = Some (drop (Z.to_nat lo) s).
Proof.
  intros Hl. unfold slice_from. rewrite slice_Some by lia.
  f_equal. apply take_ge. rewrite length_drop. unfold len. lia.
Qed.

Lemma slice_from_None {A} (s : list A) lo :
  ~ (0 <= lo <= len s) -> slice_from s lo = None.
Proof. intros Hn. apply slice_None. lia. Qed.

Lemma len_nonneg {A} (s : list A) : 0 <= len s.
Proof. unfold len. lia. Qed.

Lemma keyIsBefore_short k1 k2 :
  len k1 <= HashLength ->
  keyIsBefore (Some k1) (Some k2)
  = Some (if Compare k1 k2 <=? 0 then (true, Some k1) else (false, Some k2)).
Proof.
  intros Hl. unfold keyIsBefore.
  destruct (Z.leb_spec (len k1) HashLength); [|lia].
  destruct (Compare_range k1 k2) as [-> | [-> | ->]]; reflexivity.
Qed.

Lemma keyIsBefore_panic_iff k1 k2 :
  keyIsBefore (Some k1) (Some k2) = None <->
  HashLength < len k1 /\
  (len k2 < HashLength \/
   (take 32 k1 = take 32 k2 /\ len k2 < HashLength + 8)).
Proof.
  destruct (Z.leb_spec (len k1) HashLength) as [Hs|Hl].
  { rewrite keyIsBefore_short by assumption. split; [discriminate | lia]. }
  unfold keyIsBefore. destruct (Z.leb_spec (len k1) HashLength); [lia|].
  pose proof (len_nonneg k2) as Hk2. unfold HashLength in *.
  rewrite (slice_to_Some k1) by lia. cbn [mbind option_bind].
  destruct (Z.ltb_spec (len k2) 32) as [Hk|Hk].
  { rewrite slice_to_None by lia. cbn. split; [intros _|reflexivity]. split; [lia | left; lia]. }
  rewrite slice_to_Some by lia. cbn [mbind option_bind].
  change (Z.to_nat 32) with 32%nat.
  destruct (Compare_range (take 32 k1) (take 32 k2)) as [E | [E | E]]; rewrite E; cbn.
  - split; [discriminate|]. intros [_ [?|[E2 _]]]; [lia|].
    rewrite E2, Compare_refl in E. discriminate.
  - apply Compare_eq in E.
    rewrite (slice_from_Some k1) by lia. cbn [mbind option_bind].
    destruct (Z.ltb_spec (len k2) 40) as [Hk'|Hk'].
    + rewrite slice_from_None by lia. cbn. split; [intros _|reflexivity]. split; [lia | right; split; [assumption | lia]].
    + rewrite slice_from_Some by lia. cbn.
      split; [destruct (_ || _); discriminate|]. intros [_ [?|[_ ?]]]; lia.
  - split; [discriminate|]. intros [_ [?|[E2 _]]]; [lia|].
    rewrite E2, Compare_refl in E. discriminate.
Qed.



(** C10. [keyIsBefore] on non-nil keys stays in bounds only if, whenever
    [len(k1) > 32] and the first 32 bytes of [k1] and [k2] are equal,
    [len(k2) >= 40]; with [len(k1) = 33], the same first 32 bytes and
    [len(k2) = 32] it panics; and for [len(k1) <= 32] it returns for every
    non-nil [k2]. *)
Theorem keyIsBefore_bounds :
  (forall k1 k2 : bytes,
      keyIsBefore (Some k1) (Some k2) <> None ->
      HashLength < len k1 -> take 32 k1 = take 32 k2 -> HashLength + 8 <= len k2)
  /\ keyIsBefore (Some (replicate 33 x00)) (Some (replicate 32 x00)) = None
  /\ (forall k1 k2 : bytes, len k1 <= HashLength -> keyIsBefore (Some k1) (Some k2) <> None).
Proof.
  split; [|split].
  - intros k1 k2 Hn Hl Hp.
    destruct (Z.leb_spec (HashLength + 8) (len k2)); [assumption|].
    exfalso. apply Hn. apply keyIsBefore_panic_iff. auto.
  - reflexivity.
  - intros k1 k2 Hl. rewrite keyIsBefore_short by assumption. discriminate.
Qed.

(** ** The planner *)

Lemma wrap_int_small z : - 2 ^ 63 <= z < 2 ^ 63 -> wrap_int z = z.
Proof. intros Hz. unfold wrap_int. rewrite Z.mod_small by lia. lia. Qed.

Lemma to_uint_small z : 0 <= z < 2 ^ 64 -> to_uint z = z.
Proof. intros Hz. unfold to_uint. by rewrite Z.mod_small by lia. Qed.

Lemma byte_pack_x00 d hi :
  byte_val d = 0 ->
  byte_of_Z (Z.lor (Z.land (byte_val d) 15) (Z.shiftl (byte_val hi) 4 mod 256)) = byte_pack hi x00.
Proof.
  intros ->. unfold byte_pack. change (byte_val x00) with 0.
  by rewrite Z.land_0_l, Z.lor_0_l, Z.lor_0_r.
Qed.

Lemma list_pair_ind {A} (P : list A -> Prop) :
  P [] -> (forall x, P [x]) -> (forall x y l, P l -> P (x :: y :: l)) -> forall l, P l.
Proof.
  intros H0 H1 H2 l.
  assert (P l /\ forall x, P (x :: l)) as [Hl _]; [|exact Hl].
  induction l as [|y l [IH1 IH2]]; split; auto.
Qed.

Lemma decodeNibbles_zero (n : bytes) : forall k : nat,
  (Nat.div2 (S (length n)) <= k)%nat ->
  decodeNibbles n (replicate k x00)
  = Some (pack n ++ replicate (k - Nat.div2 (S (length n))) x00).
Proof.
  induction n as [|hi|hi lo rest IH] using list_pair_ind; intros k Hk.
  - cbn. by rewrite Nat.sub_0_r.
  - destruct k as [|k]; [cbn in Hk; lia|].
    cbn [decodeNibbles replicate pack length Nat.div2 app].
    rewrite byte_pack_x00 by reflexivity. by rewrite Nat.sub_succ, Nat.sub_0_r.
  - destruct k as [|k]; [cbn in Hk; lia|].
    change (S (Nat.div2 (S (length rest))) <= S k)%nat in Hk.
    cbn [decodeNibbles replicate pack].
    rewrite IH by lia. cbn [fmap option_fmap option_map app].
    reflexivity.
Qed.

Lemma div2_succ_le (n : nat) : (Nat.div2 (S n) <= n)%nat.
Proof.
  rewrite Nat.div2_div.
  pose proof (Nat.div_mod_eq (S n) 2). pose proof (Nat.mod_upper_bound (S n) 2). lia.
Qed.

Lemma sub_div2_succ (n : nat) : (n - Nat.div2 (S n))%nat = Z.to_nat (Z.of_nat n / 2).
Proof.
  rewrite Nat.div2_div.
  pose proof (Nat.div_mod_eq (S n) 2). pose proof (Nat.mod_upper_bound (S n) 2).
  pose proof (Z.div_mod (Z.of_nat n) 2). pose proof (Z.mod_pos_bound (Z.of_nat n) 2).
  lia.
Qed.

Lemma decodeNibbles_make (n : bytes) :
  decodeNibbles n (replicate (length n) x00)
  = Some (pack n ++ replicate (Z.to_nat (len n / 2)) x00).
Proof.
  rewrite decodeNibbles_zero by apply div2_succ_le.
  by rewrite sub_div2_succ.
Qed.

(** Inversion of the calls' outcomes. *)
Lemma bind_Done {A B} (m : result A) (k : A -> result B) (b : B) :
  bind m k = Done b -> exists a, m = Done a /\ k a = Done b.
Proof. destruct m; cbn; intros Hk; try discriminate. eauto. Qed.

Lemma must_Done {A} (o : option A) (a : A) : must o = Done a -> o = Some a.
Proof. destruct o; cbn; congruence. Qed.

Tactic Notation "inv_bind" hyp(H) :=
  let x := fresh "x" in
  let Hx := fresh "Hx" in
  apply bind_Done in H as (x & Hx & H).

Tactic Notation "inv_bind" hyp(H) "as" simple_intropattern(p) ident(Hx) :=
  apply bind_Done in H as (p & Hx & H).

Section PlanProofs.
Context `{Collaborators}.

Lemma opensRange_spec pc ps r :
  wf_request r -> prev_rel pc ps ->
  opensRange pc r
  = Done (negb (match ps with Some p => sameRange p r | None => false end)).
Proof.
  intros [Hpos _] Hrel. unfold opensRange.
  destruct pc as [c|], ps as [s|]; try contradiction; [|reflexivity].
  destruct Hrel as (Hc & Hp & Hb). unfold Equal, sameRange. cbn [default].
  rewrite <- Hc, <- Hp.
  destruct (decide (contract r = contract c)) as [E|E].
  - rewrite (bool_decide_eq_true_2 _ E). cbn [negb].
    rewrite !slice_to_Some by assumption. cbn [must bind default].
    f_equal. f_equal. apply bool_decide_ext. unfold hexPrefix. tauto.
  - rewrite (bool_decide_eq_false_2 _ E). cbn [negb].
    rewrite bool_decide_eq_false_2 by tauto. reflexivity.
Qed.

Lemma mergeIntoLast_proj {B} (f : Range -> B) r ranges :
  (forall rg, f (mergeInto r rg) = f rg) ->
  f <$> mergeIntoLast r ranges = f <$> ranges.
Proof.
  intros Hf. unfold mergeIntoLast. destruct (last ranges) as [rg|] eqn:E; [|reflexivity].
  rewrite list_fmap_insert, Hf. apply list_insert_id.
  rewrite list_lookup_fmap. rewrite last_lookup in E. by rewrite E.
Qed.

Lemma addHexToLast_spec r ranges :
  ranges <> [] ->
  addHexToLast (resolve_set <$> ranges) (hexSuffix r)
  = Some (resolve_set <$> mergeIntoLast r ranges).
Proof.
  intros Hne. unfold addHexToLast, mergeIntoLast.
  rewrite fmap_last, length_fmap.
  destruct (last ranges) as [rg|] eqn:E.
  - cbn. by rewrite list_fmap_insert.
  - apply last_None in E. contradiction.
Qed.

Lemma mergeIntoLast_nonempty r ranges : ranges <> [] -> mergeIntoLast r ranges <> [].
Proof.
  intros Hne Hm. apply Hne. apply (f_equal length) in Hm.
  unfold mergeIntoLast in Hm. destruct (last ranges); [rewrite length_insert in Hm|];
    by apply length_zero_iff_nil.
Qed.
Lemma ext_written_shift i r todo' p :
  ext_written (i + 1) todo' p -> ext_written i (r :: todo') p.
Proof.
  intros (k & r' & Hk & Hp & Hl & He). exists (k + 1), r'.
  split; [lia|]. split; [lia|]. split; [|assumption].
  replace (Z.to_nat (k + 1)) with (S (Z.to_nat k)) by lia. exact Hl.
Qed.

Lemma plan_loop_refines tl I0 todo :
  is_int tl -> Forall wf_request todo ->
  forall i pc ps acc ranges,
    prev_rel pc ps -> (is_Some pc -> ranges <> []) -> acc_rel I0 acc ranges ->
    exists todo' acc',
      plan_loop tl i todo pc acc = Done (todo', acc')
      /\ acc_rel I0 acc' (planRanges tl i ps todo ranges)
      /\ Forall2 same_shape todo todo'
      /\ exists news,
           origin_ext <$> planRanges tl i ps todo ranges = (origin_ext <$> ranges) ++ news
           /\ Forall (ext_written i todo') news.
Proof.
  intros Htl Hwf. induction Hwf as [|r rest Hr Hrest IH]; intros i pc ps acc ranges Hprev Hne Hacc.
  - exists [], acc. cbn. split; [reflexivity|]. split; [assumption|]. split; [constructor|].
    exists []. by rewrite app_nil_r.
  - cbn [plan_loop planRanges].
    rewrite (opensRange_spec pc ps r Hr Hprev). cbn [bind].
    pose proof Hr as [Hpos Hovf].
    pose proof (len_nonneg (contract r)) as Hcl.
    destruct (match ps with Some p => sameRange p r | None => false end) eqn:Hsh; cbn [negb].
    + (* merged into the open range *)
      destruct ps as [s|]; [|discriminate].
      destruct pc as [c|]; [|contradiction].
      specialize (Hne (ltac:(eauto))).
      destruct Hacc as (Hsk & Hfb & Hrs & Hix).
      rewrite slice_from_Some by assumption. cbn [must bind].
      rewrite Hrs. fold (hexSuffix r). rewrite (addHexToLast_spec r ranges Hne). cbn [must bind].
      set (acc1 := Build_PlanAcc _ _ _ _).
      edestruct (IH (i + 1) (Some c) (Some r) acc1 (mergeIntoLast r ranges))
        as (rest' & acc' & Hrun & Hacc' & Hshape & news & Hnews & Hw).
      * destruct Hprev as (Hc & Hp & Hb). apply bool_decide_eq_true in Hsh as [Hs1 Hs2].
        cbn. split; [congruence|]. split; [congruence|assumption].
      * intros _. by apply mergeIntoLast_nonempty.
      * split; [|split; [|split]]; cbn.
        -- by rewrite mergeIntoLast_proj.
        -- by rewrite mergeIntoLast_proj.
        -- reflexivity.
        -- by rewrite mergeIntoLast_proj.
      * rewrite Hrun. cbn [bind]. eexists _, _. split; [reflexivity|].
        split; [assumption|]. split.
        { constructor; [by repeat split | assumption]. }
        exists news. split.
        { rewrite Hnews. by rewrite mergeIntoLast_proj. }
        eapply Forall_impl; [exact Hw|]. intros p. apply ext_written_shift.
    + (* a new range *)
      destruct Hacc as (Hsk & Hfb & Hrs & Hix).
      rewrite slice_to_Some by assumption. cbn [must bind].
      rewrite decodeNibbles_make. cbn [must bind].
      rewrite slice_from_Some by assumption. cbn [must bind].
      set (req' := set_extResolvePos r _).
      set (acc1 := Build_PlanAcc _ _ _ _).
      edestruct (IH (i + 1) (Some req') (Some r) acc1 (ranges ++ [openRange tl i r]))
        as (rest' & acc' & Hrun & Hacc' & Hshape & news & Hnews & Hw).
      * cbn. split; [reflexivity|]. split; [reflexivity|assumption].
      * intros _ Hnil. by apply app_eq_nil in Hnil as [_ ?].
      * assert (len (take (Z.to_nat (resolvePos r)) (resolveHex r)) = resolvePos r) as Hlen.
        { unfold len in *. rewrite length_take. lia. }
        assert (wrap_int (resolvePos r + wrap_int (2 * len (contract r)))
                = resolvePos r + 2 * len (contract r)) as Hext.
        { rewrite (wrap_int_small (2 * _)) by lia. apply wrap_int_small. lia. }
        subst acc1. split; [|split; [|split]]; cbn; rewrite fmap_app; cbn.
        -- rewrite Hsk. do 2 f_equal. unfold hexPrefix. by rewrite Hlen.
        -- rewrite Hfb. do 2 f_equal. rewrite Hext.
           rewrite wrap_int_small by lia. apply to_uint_small. lia.
        -- rewrite Hrs. do 3 f_equal. f_equal.
           destruct (Z.leb_spec tl (resolvePos r)); [lia|].
           unfold is_int in Htl. rewrite wrap_int_small by lia. lia.
        -- rewrite Hix. by rewrite app_assoc.
      * rewrite Hrun. cbn [bind]. eexists _, _. split; [reflexivity|].
        split; [assumption|]. split.
        { constructor; [by repeat split | assumption]. }
        exists (origin_ext (openRange tl i r) :: news). split.
        { rewrite Hnews, fmap_app. by rewrite <- app_assoc. }
        constructor.
        { exists 0, req'. cbn. split; [lia|]. split; [lia|]. split; [reflexivity|].
          rewrite (wrap_int_small (2 * _)) by lia. apply wrap_int_small. lia. }
        eapply Forall_impl; [exact Hw|]. intros p. apply ext_written_shift.
Qed.

Lemma planRanges_head tl todo : forall i ps ranges o,
  (origin_request <$> ranges) !! 0%nat = Some o ->
  (origin_request <$> planRanges tl i ps todo ranges) !! 0%nat = Some o.
Proof.
  induction todo as [|r rest IH]; intros i ps ranges o Ho; [assumption|].
  cbn [planRanges]. apply IH.
  destruct (match ps with Some p => sameRange p r | None => false end).
  - by rewrite mergeIntoLast_proj.
  - rewrite fmap_app. by apply lookup_app_l_Some.
Qed.

Lemma index_Some {A} (l : list A) (i : Z) x :
  index l i = Some x <-> 0 <= i /\ l !! Z.to_nat i = Some x.
Proof.
  unfold index. destruct (Z.leb_spec 0 i); split; try (intros [? ?]); try lia; auto; discriminate.
Qed.

Lemma PrepareResolveParams_run (tr : Resolver) :
  requests tr <> [] ->
  is_int (topLevels tr) ->
  Forall wf_request (requests tr) ->
  first_index_ok tr ->
  let R := planRanges (topLevels tr) 0 None (requests tr) [] in
  exists reqs' acc' tr',
    acc_rel (reqIndices tr) acc' R
    /\ Forall2 same_shape (requests tr) reqs'
    /\ Forall (ext_written 0 reqs') (origin_ext <$> R)
    /\ PrepareResolveParams tr = Done (tr', (pa_startkeys acc', pa_fixedbits acc'))
    /\ rss tr' = pa_rss acc'
    /\ reqIndices tr' = pa_reqIndices acc'
    /\ requests tr' = reqs'.
Proof.
  intros Hne Htl Hwf Hfirst R.
  destruct (plan_loop_refines (topLevels tr) (reqIndices tr) (requests tr) Htl Hwf
              0 None None
              {| pa_startkeys := []; pa_fixedbits := []; pa_reqIndices := reqIndices tr;
                 pa_rss := [] |} [])
    as (reqs' & acc' & Hrun & Hacc & Hshape & news & Hnews & Hw).
  { exact I. } { by intros [? ?]. } { repeat split. cbn. by rewrite app_nil_r. }
  pose proof Hacc as (Hsk & Hfb & Hrs & Hix).
  fold R in Hacc, Hsk, Hfb, Hrs, Hix, Hnews.
  rewrite fmap_nil, app_nil_l in Hnews. rewrite <- Hnews in Hw.
  assert (exists o, (origin_request <$> R) !! 0%nat = Some o /\ o = 0) as (o & Ho & ->).
  { subst R. destruct (requests tr) as [|r rest]; [contradiction|].
    exists 0. split; [|reflexivity]. cbn [planRanges]. by apply planRanges_head. }
  pose proof (Forall2_length _ _ _ Hshape) as Hlen.
  assert (exists i0, index (reqIndices tr ++ (origin_request <$> R)) 0 = Some i0
                     /\ 0 <= i0 < len (requests tr)) as (i0 & Hi0 & Hi0r).
  { unfold first_index_ok in Hfirst. destruct (reqIndices tr) as [|j js].
    - exists 0. split; [exact Ho|]. destruct (requests tr); [contradiction|].
      unfold len. cbn. lia.
    - exists j. split; [reflexivity | assumption]. }
  assert (exists r0, index reqs' i0 = Some r0) as (r0 & Hr0).
  { destruct (lookup_lt_is_Some_2 reqs' (Z.to_nat i0)) as [r0 Hr0].
    - unfold len in Hi0r. lia.
    - exists r0. apply index_Some. split; [lia | assumption]. }
  assert (exists rs0, index (resolve_set <$> R) 0 = Some rs0) as (rs0 & Hrs0).
  { rewrite list_lookup_fmap in Ho. unfold index. cbn [Z.leb Z.compare].
    change (Z.to_nat 0) with 0%nat.
    rewrite list_lookup_fmap. destruct (R !! 0%nat); [cbn; eauto | discriminate]. }
  assert ((len (requests tr) =? 0) = false) as Hz.
  { apply Z.eqb_neq. destruct (requests tr); [contradiction|]. unfold len. cbn. lia. }
  exists reqs', acc'. unfold PrepareResolveParams. cbv zeta.
  cbn [requests reqIndices topLevels set_rss rss]. rewrite Hz.
  rewrite Hrun. cbn [bind].
  cbn [requests reqIndices rss set_rss set_reqIndices set_requests].
  rewrite Hix, Hi0. cbn [must bind]. rewrite Hr0. cbn [must bind].
  rewrite Hrs, Hrs0. cbn [must bind].
  eexists. split; [assumption|]. split; [assumption|]. split; [assumption|].
  split; [reflexivity|]. cbn. repeat split; congruence.
Qed.

Lemma PrepareResolveParams_returns (tr : Resolver) :
  is_int (topLevels tr) ->
  Forall wf_request (requests tr) ->
  first_index_ok tr ->
  exists tr1 out, PrepareResolveParams tr = Done (tr1, out).
Proof.
  intros Htl Hwf Hfirst. destruct (requests tr) as [|r rest] eqn:Hreqs.
  - unfold PrepareResolveParams. cbv zeta. cbn [requests set_rss]. rewrite Hreqs.
    cbn. eauto.
  - destruct (PrepareResolveParams_run tr) as (? & ? & tr1 & _ & _ & _ & Hrun & _);
      try assumption.
    + by rewrite Hreqs.
    + by rewrite Hreqs.
    + eauto.
Qed.

(** C7, amended. On requests that can be sliced and whose positions fit an
    [int], planning returns the ranges of [planRanges]: a request opens a
    range unless it shares [(contract, resolveHex[:resolvePos])] with the
    request before it, in which case its suffix is added to the preceding
    range's resolve set; for the request that opens a range,
    [minLength = max(0, topLevels - resolvePos)],
    [extResolvePos = resolvePos + 2*|contract|] (written to the request),
    [fixedbits = 4*extResolvePos], and the start key is
    [contract || pack(resolveHex[:resolvePos])] followed by zero bytes up to
    the length [|contract| + resolvePos]. *)
Theorem PrepareResolveParams_ranges (tr : Resolver) :
  requests tr <> [] ->
  is_int (topLevels tr) ->
  Forall wf_request (requests tr) ->
  first_index_ok tr ->
  let R := planRanges (topLevels tr) 0 None (requests tr) [] in
  exists tr',
    PrepareResolveParams tr = Done (tr', (startkey <$> R, fixed_bits <$> R))
    /\ rss tr' = resolve_set <$> R
    /\ reqIndices tr' = reqIndices tr ++ (origin_request <$> R)
    /\ Forall2 same_shape (requests tr) (requests tr')
    /\ Forall (fun rg => exists r', index (requests tr') (origin_request rg) = Some r'
                                    /\ extResolvePos r' = range_extResolvePos rg) R.
Proof.
  intros Hne Htl Hwf Hfirst R.
  destruct (PrepareResolveParams_run tr Hne Htl Hwf Hfirst)
    as (reqs' & acc' & tr' & (Hsk & Hfb & Hrs & Hix) & Hshape & Hw & Hrun & Erss & Eidx & Ereqs).
  fold R in Hsk, Hfb, Hrs, Hix, Hw.
  exists tr'. rewrite Hrun, Hsk, Hfb, Erss, Eidx, Ereqs.
  split; [reflexivity|]. split; [exact Hrs|]. split; [exact Hix|]. split; [exact Hshape|].
  apply Forall_forall. intros rg Hrg.
  rewrite Forall_forall in Hw.
  destruct (Hw (origin_ext rg)) as (k & r' & Hk & Hp & Hl & He).
  { by apply list_elem_of_fmap_2. }
  cbn in Hp, He. exists r'. split; [|exact He].
  apply index_Some. rewrite Hp. split; [lia|]. by rewrite Z.add_0_l.
Qed.

Lemma opensRange_set_ext pc r e :
  opensRange pc (set_extResolvePos r e) = opensRange pc r.
Proof. reflexivity. Qed.

Lemma set_extResolvePos_fields r e :
  contract (set_extResolvePos r e) = contract r
  /\ resolveHex (set_extResolvePos r e) = resolveHex r
  /\ resolvePos (set_extResolvePos r e) = resolvePos r
  /\ forall e', set_extResolvePos (set_extResolvePos r e) e' = set_extResolvePos r e'.
Proof. repeat split. Qed.

Lemma plan_loop_again tl todo :
  forall i pc acc todo1 acc1,
    plan_loop tl i todo pc acc = Done (todo1, acc1) ->
    forall accB, plan_same accB acc ->
    exists accB',
      plan_loop tl i todo1 pc accB = Done (todo1, accB')
      /\ plan_same accB' acc1
      /\ exists D, pa_reqIndices acc1 = pa_reqIndices acc ++ D
                /\ pa_reqIndices accB' = pa_reqIndices accB ++ D.
Proof.
  induction todo as [|r rest IH]; intros i pc acc todo1 acc1 Hrun accB Hsame.
  - cbn in Hrun. injection Hrun as <- <-. exists accB. cbn.
    split; [reflexivity|]. split; [assumption|]. exists []. by rewrite !app_nil_r.
  - cbn [plan_loop] in Hrun. inv_bind Hrun. rename x into opens, Hx into Hopens.
    destruct Hsame as (Esk & Efb & Ers).
    destruct opens.
    + inv_bind Hrun. rename x into hp, Hx into Hhp.
      inv_bind Hrun. rename x into tail, Hx into Htail.
      inv_bind Hrun. rename x into sfx, Hx into Hsfx.
      inv_bind Hrun. destruct x as [rest1 out]. injection Hrun as <- <-.
      cbn [plan_loop]. rewrite opensRange_set_ext, Hopens. cbn [bind].
      destruct (set_extResolvePos_fields r
                  (wrap_int (resolvePos r + wrap_int (2 * len (contract r)))))
        as (-> & -> & -> & ->).
      rewrite Hhp. cbn [bind]. rewrite Htail. cbn [bind]. rewrite Hsfx. cbn [bind].
      match goal with
      | |- context [plan_loop _ _ _ _ ?b] =>
          destruct (IH _ _ _ _ _ Hx b) as (accB' & HrunB & HsameB & D & HD1 & HD2)
      end.
      { repeat split; cbn; congruence. }
      exists accB'. rewrite HrunB. split; [reflexivity|].
      split; [assumption|]. cbn in HD1, HD2. exists (i :: D).
      rewrite HD1, HD2. by rewrite <- !app_assoc.
    + inv_bind Hrun. rename x into sfx, Hx into Hsfx.
      inv_bind Hrun. rename x into rss', Hx into Hrss.
      inv_bind Hrun. destruct x as [rest1 out]. injection Hrun as <- <-.
      cbn [plan_loop]. rewrite Hopens. cbn [bind]. rewrite Hsfx. cbn [bind].
      rewrite Ers, Hrss. cbn [bind].
      match goal with
      | |- context [plan_loop _ _ _ _ ?b] =>
          destruct (IH _ _ _ _ _ Hx b) as (accB' & HrunB & HsameB & D & HD1 & HD2)
      end.
      { repeat split; cbn; congruence. }
      exists accB'. rewrite HrunB. split; [reflexivity|].
      split; [assumption|]. exists D. auto.
Qed.

Lemma index_app_l {A} (l1 l2 : list A) i x :
  index l1 i = Some x -> index (l1 ++ l2) i = Some x.
Proof.
  rewrite !index_Some. intros [Hi Hl]. split; [assumption|]. by apply lookup_app_l_Some.
Qed.

(** C8. When planning returns, planning again on the resolver it left
    returns the same start keys and fixed bits, and leaves the same resolve
    sets, requests, current request and current resolve set; [reqIndices]
    grows by a copy of the indices, so that every range still finds its
    request. *)
Theorem PrepareResolveParams_idempotent (tr tr1 : Resolver) (out : list bytes * list Z) :
  PrepareResolveParams tr = Done (tr1, out) ->
  exists tr2,
    PrepareResolveParams tr1 = Done (tr2, out)
    /\ rss tr2 = rss tr1
    /\ requests tr2 = requests tr1
    /\ currentReq tr2 = currentReq tr1
    /\ currentRs tr2 = currentRs tr1
    /\ exists D, reqIndices tr2 = reqIndices tr1 ++ D.
Proof.
  intros Hrun. unfold PrepareResolveParams in Hrun. cbv zeta in Hrun.
  cbn [requests reqIndices topLevels set_rss rss] in Hrun.
  destruct (len (requests tr) =? 0) eqn:Hz.
  - injection Hrun as <- <-. unfold PrepareResolveParams. cbv zeta.
    cbn [requests set_rss]. rewrite Hz. eexists. split; [reflexivity|].
    cbn. repeat split. exists []. by rewrite app_nil_r.
  - inv_bind Hrun. destruct x as [reqs1 acc1]. rename Hx into Hloop.
    cbn [requests reqIndices rss set_rss set_reqIndices set_requests] in Hrun.
    inv_bind Hrun. rename x into i0, Hx into Hi0. apply must_Done in Hi0.
    inv_bind Hrun. rename x into r0, Hx into Hr0. apply must_Done in Hr0.
    inv_bind Hrun. rename x into rs0, Hx into Hrs0. apply must_Done in Hrs0.
    injection Hrun as <- <-.
    destruct (plan_loop_again _ _ _ _ _ _ _ Hloop
                {| pa_startkeys := []; pa_fixedbits := [];
                   pa_reqIndices := pa_reqIndices acc1; pa_rss := [] |})
      as (acc2 & Hloop2 & (Esk & Efb & Ers) & D & HD1 & HD2).
    { repeat split. }
    cbn in HD2.
    assert ((len reqs1 =? 0) = false) as Hz1.
    { apply Z.eqb_neq. apply index_Some in Hr0 as [_ Hr0]. destruct reqs1; [discriminate|].
      unfold len. cbn. lia. }
    unfold PrepareResolveParams. cbv zeta.
    cbn [requests reqIndices topLevels rss set_rss set_reqIndices set_requests
         set_currentReq set_currentRs].
    rewrite Hz1, Hloop2. cbn [bind].
    cbn [requests reqIndices rss set_rss set_reqIndices set_requests].
    rewrite HD2, (index_app_l _ D _ _ Hi0). cbn [must bind].
    rewrite Hr0. cbn [must bind]. rewrite Ers, Hrs0. cbn [must bind].
    rewrite Esk, Efb. eexists. split; [reflexivity|]. cbn.
    repeat split. by exists D.
Qed.

End PlanProofs.

(** ** The builder *)

Section WalkerProofs.
Context `{Collaborators}.

Lemma genStructStep_succ tr :
  stepReturns ->
  exists tr' err, genStructStep tr = Done (tr', err) /\ succ tr' = succ tr.
Proof.
  intros Hret. unfold genStructStep, stepData.
  destruct (fromCache tr); [|destruct (fieldSet tr =? 0)];
    match goal with
    | |- context [GenStructStep ?rs ?c ?s ?h ?d ?g] =>
        destruct (Hret rs c s h d g) as ([[hb' g'] err] & ->)
    end; cbn; eauto.
Qed.

Lemma Walker_remember_succ isAccount v tr :
  succ (Walker_remember isAccount v tr).1 = succ tr.
Proof.
  unfold Walker_remember. destruct isAccount; [|reflexivity].
  destruct (DecodeForStorage (a tr) v) as [acc [e|]]; [reflexivity|].
  cbn [a set_a].
  destruct (IsEmptyCodeHash acc && IsEmptyRoot acc); [reflexivity|].
  destruct (HasStorageSize acc); cbn [hb set_fieldSet a];
    destruct (hb_hash _ _) as [h1 [e|]]; try reflexivity; cbn [hb set_hb a];
    destruct (hb_hash _ _) as [h2 e2]; reflexivity.
Qed.

(** C5. A call of [Walker] with a non-empty value, once the range switch (if
    any) has succeeded, returns with [succ = kAsNibbles[skip:]], where [skip]
    is the current request's [extResolvePos], less 8 exactly when
    [fromCache] holds and [extResolvePos > 2*HashLength]; the terminator 16 is
    appended exactly when [fromCache] does not hold. *)
Theorem Walker_sets_succ (isAccount fromCache' : bool) (keyIdx' : Z) (k v : bytes)
    (tr tr1 : Resolver) (req : ResolveRequest) :
  stepReturns ->
  0 < len v ->
  Walker_switch keyIdx' tr = Done (tr1, None) ->
  currentRequest tr1 = Some req ->
  extResolvePos req < 2 ^ 63 ->
  0 <= walkerSkip fromCache' req <= len k ->
  exists tr' err,
    Walker isAccount fromCache' keyIdx' k v tr = Done (tr', err)
    /\ succ tr' = drop (Z.to_nat (walkerSkip fromCache' req)) k
                  ++ (if fromCache' then [] else [x10]).
Proof.
  intros Hret Hv Hsw Hreq Hint Hskip.
  unfold Walker. rewrite Hsw. cbn [bind].
  destruct (Z.ltb_spec 0 (len v)); [|lia].
  assert (exists tr2, Walker_advance fromCache' k tr1 = Done tr2
            /\ succ tr2 = drop (Z.to_nat (walkerSkip fromCache' req)) k
                          ++ (if fromCache' then [] else [x10])) as (tr2 & Hadv & Hsucc).
  { unfold Walker_advance. cbv zeta.
    assert (currentRequest (set_succ [] (set_curr (succ tr1) tr1)) = Some req) as ->
      by exact Hreq.
    cbn [must bind]. unfold walkerSkip in *.
    assert ((HashLength * 2 <? extResolvePos req) = (2 * HashLength <? extResolvePos req)) as ->
      by (f_equal; lia).
    destruct (fromCache' && (2 * HashLength <? extResolvePos req)) eqn:Hc.
    - apply andb_true_iff in Hc as [-> Hlt]. apply Z.ltb_lt in Hlt. unfold HashLength in Hlt.
      rewrite wrap_int_small by lia.
      rewrite slice_from_Some by assumption. cbn [must bind negb].
      eexists. split; [reflexivity|]. cbn. by rewrite app_nil_r.
    - rewrite slice_from_Some by assumption. cbn [must bind].
      eexists. split; [reflexivity|]. destruct fromCache'; cbn; [by rewrite app_nil_r | reflexivity]. }
  rewrite Hadv. cbn [bind].
  assert (exists tr3 err3,
            (if 0 <? len (curr tr2) then genStructStep tr2 else Done (tr2, None))
            = Done (tr3, err3) /\ succ tr3 = succ tr2) as (tr3 & err3 & -> & Hs3).
  { destruct (0 <? len (curr tr2)); [by apply genStructStep_succ | eauto]. }
  cbn [bind]. destruct err3 as [e|].
  - eexists _, _. split; [reflexivity|]. congruence.
  - destruct fromCache'.
    + eexists _, _. split; [reflexivity|]. cbn. congruence.
    + pose proof (Walker_remember_succ isAccount v (set_fromCache false tr3)) as Hrem.
      destruct (Walker_remember isAccount v (set_fromCache false tr3)) as [tr4 err4].
      eexists _, _. split; [reflexivity|]. cbn in Hrem. congruence.
Qed.

End WalkerProofs.

(** ** The walk: what every iteration preserves *)

Section WalkProofs.
Context `{Collaborators} `{KVStore}.

Variable walker : Z -> bytes -> bytes -> bool -> Resolver -> result (Resolver * option error).
Variable isAccountBucket : bool.
Variables (startkeys : list bytes) (fixedbits : list Z).
Hypothesis Hkeeps : keeps_plan walker.

Lemma walk_inv_cursor P s s' :
  w_tr s' = w_tr s -> w_calls s' = w_calls s -> walk_inv P s -> walk_inv P s'.
Proof. intros Htr Hc [Hp Hf]. split; [by rewrite Htr | by rewrite Hc]. Qed.

Lemma adjustRange_keeps fuel : forall s fc mk r,
  adjustRange startkeys fixedbits fuel s fc mk = Done r ->
  w_tr (adj_state r) = w_tr s /\ w_calls (adj_state r) = w_calls s.
Proof.
  induction fuel as [|fuel IH]; intros s fc mk r Hrun; [discriminate|].
  cbn [adjustRange] in Hrun. cbv zeta in Hrun.
  inv_bind Hrun. inv_bind Hrun. inv_bind Hrun.
  destruct (x1 <? 0).
  - match type of Hrun with
    | context [set_cache ?m (set_main ?n s)] => set (s1 := set_cache m (set_main n s)) in *
    end.
    assert (w_tr s1 = w_tr s /\ w_calls s1 = w_calls s) as [E1 E2] by (split; reflexivity).
    destruct (w_k s1), (w_cacheK s1);
      try (inv_bind Hrun as [fc' mk'] Hkb; cbn beta iota in Hrun; apply IH in Hrun;
           destruct Hrun as [-> ->]; by split).
    injection Hrun as <-. by split.
  - destruct (0 <? x1).
    + destruct (wrap_int (w_rangeIdx s + 1) =? len startkeys).
      * injection Hrun as <-. by split.
      * inv_bind Hrun. inv_bind Hrun. apply IH in Hrun.
        destruct Hrun as [-> ->]. by split.
    + injection Hrun as <-. by split.
Qed.

Lemma callWalker_inv P key v fc s s' err :
  walk_inv P s ->
  callWalker walker key v fc s = Done (s', err) ->
  plan_of (w_tr s') = P
  /\ w_calls s' = w_calls s ++ [{| em_keyIdx := w_rangeIdx s;
                                  em_key := DecompressNibbles (default [] key);
                                  em_value := v; em_fromCache := fc |}].
Proof.
  intros [Hp Hf] Hcall. unfold callWalker in Hcall. cbv zeta in Hcall.
  cbn [em_keyIdx em_key] in Hcall.
  inv_bind Hcall. destruct x as [tr' e]. injection Hcall as <- <-.
  apply Hkeeps in Hx. cbn. split; [congruence | reflexivity].
Qed.

Lemma skipSubtree_inv P b s :
  walk_inv P s -> walk_inv P (flow_state (skipSubtree b s)).
Proof.
  intros Hinv. unfold skipSubtree.
  destruct (nextSubtree _); [|destruct b]; cbn; try assumption;
    by apply (walk_inv_cursor P s).
Qed.

Lemma dispatch_inv P s fc mk flow :
  walk_inv P s ->
  dispatch walker isAccountBucket s fc mk = Done flow ->
  walk_inv P (flow_state flow).
Proof.
  intros Hinv Hrun. unfold dispatch in Hrun.
  destruct fc; cbn [negb] in Hrun.
  - cbv zeta in Hrun. destruct (len (w_cacheV s) =? 0).
    + inv_bind Hrun. destruct x as [s1 err].
      assert (walk_inv P s1) as Hinv1.
      { destruct (_ && _ && _).
        - destruct (callWalker_inv _ _ _ _ _ _ _ Hinv Hx) as [Hp Hc].
          split; [assumption|]. rewrite Hc. apply Forall_app. split; [apply Hinv|].
          constructor; [|constructor]. intros [=].
        - by injection Hx as <- <-. }
      destruct err; injection Hrun as <-; [assumption|]. by apply skipSubtree_inv.
    + inv_bind Hrun. apply must_Done in Hx. rename x into ri.
      inv_bind Hrun. apply must_Done in Hx0. rename x into req.
      inv_bind Hrun. apply must_Done in Hx1. rename x into rs.
      destruct (_ <? _).
      { injection Hrun as <-. by apply (walk_inv_cursor P s). }
      inv_bind Hrun. apply must_Done in Hx2. rename x into suffix.
      destruct (HashOnly rs suffix) eqn:Hho; cbn [negb] in Hrun.
      2:{ injection Hrun as <-. by apply (walk_inv_cursor P s). }
      inv_bind Hrun. destruct x as [s1 err].
      destruct (callWalker_inv _ _ _ _ _ _ _ Hinv Hx3) as [Hp Hc].
      assert (walk_inv P s1) as Hinv1.
      { split; [assumption|]. rewrite Hc. apply Forall_app. split; [apply Hinv|].
        constructor; [|constructor]. intros _. cbn.
        destruct Hinv as [<- _]. unfold plan_of. cbn. eauto 10. }
      destruct err; injection Hrun as <-; [assumption|]. by apply skipSubtree_inv.
  - inv_bind Hrun. destruct x as [s1 err].
    assert (walk_inv P s1) as Hinv1.
    { destruct (0 <? len (w_v s)).
      - destruct (callWalker_inv _ _ _ _ _ _ _ Hinv Hx) as [Hp Hc].
        split; [assumption|]. rewrite Hc. apply Forall_app. split; [apply Hinv|].
        constructor; [|constructor]. intros [=].
      - by injection Hx as <- <-. }
    destruct err; injection Hrun as <-; [assumption|].
    by apply (walk_inv_cursor P s1).
Qed.

Lemma loopBody_inv P fuel s flow :
  walk_inv P s ->
  loopBody walker isAccountBucket startkeys fixedbits fuel s = Done flow ->
  walk_inv P (flow_state flow).
Proof.
  intros Hinv Hrun. unfold loopBody in Hrun.
  destruct (_ && _).
  - inv_bind Hrun. destruct (nextSubtree x); injection Hrun as <-;
      by apply (walk_inv_cursor P s).
  - inv_bind Hrun. destruct x as [fc mk]. inv_bind Hrun.
    assert (walk_inv P (adj_state x)) as Hinv1.
    { destruct (0 <? w_fixedbytes s).
      - apply adjustRange_keeps in Hx0. destruct Hx0.
        by apply (walk_inv_cursor P s).
      - by injection Hx0 as <-. }
    destruct x as [s1 fc1 mk1|s1].
    + by apply (dispatch_inv P) in Hrun.
    + by injection Hrun as <-.
Qed.

Lemma walkLoop_inv P fuel : forall s s' err,
  walk_inv P s ->
  walkLoop walker isAccountBucket startkeys fixedbits fuel s = Done (s', err) ->
  walk_inv P s'.
Proof.
  induction fuel as [|fuel IH]; intros s s' err Hinv Hrun; [discriminate|].
  cbn [walkLoop] in Hrun.
  destruct (w_k s), (w_cacheK s);
    try (inv_bind Hrun; apply (loopBody_inv P) in Hx; [|assumption];
         destruct x; [by apply IH in Hrun | by injection Hrun as <- <-]).
  by injection Hrun as <- <-.
Qed.

End WalkProofs.

(** ** The builder leaves the plan alone *)

Section BuilderFrame.
Context `{Collaborators}.

Lemma genStructStep_plan tr tr' err :
  genStructStep tr = Done (tr', err) -> plan_of tr' = plan_of tr.
Proof.
  unfold genStructStep, stepData. intros Hrun.
  destruct (fromCache tr); [|destruct (fieldSet tr =? 0)];
    inv_bind Hrun as [[hb' g'] e] Hstep; by injection Hrun as <- <-.
Qed.

Lemma finaliseRoot_plan tr tr' err :
  finaliseRoot tr = Done (tr', err) -> plan_of tr' = plan_of tr.
Proof.
  unfold finaliseRoot. cbv zeta. intros Hrun.
  inv_bind Hrun as [tr1 e1] Hstep.
  assert (plan_of tr1 = plan_of tr) as E.
  { destruct (0 <? len _); [by apply genStructStep_plan in Hstep | by injection Hstep as <- <-]. }
  destruct e1; [by injection Hrun as <- <-|].
  destruct (hb_hasRoot (hb tr1)); [|by injection Hrun as <- <-].
  destruct (hookFunction _ _ _ _) as [w e]. by injection Hrun as <- <-.
Qed.

Lemma Walker_switch_plan keyIdx' tr tr' err :
  Walker_switch keyIdx' tr = Done (tr', err) -> plan_of tr' = plan_of tr.
Proof.
  unfold Walker_switch. intros Hrun.
  destruct (negb (keyIdx' =? keyIdx tr)); [|by injection Hrun as <- <-].
  inv_bind Hrun as [tr1 e1] Hfin. apply finaliseRoot_plan in Hfin.
  destruct e1; [by injection Hrun as <- <-|].
  cbv zeta in Hrun. inv_bind Hrun. inv_bind Hrun. inv_bind Hrun.
  by injection Hrun as <- <-.
Qed.

Lemma Walker_advance_plan fc k tr tr' :
  Walker_advance fc k tr = Done tr' -> plan_of tr' = plan_of tr.
Proof.
  unfold Walker_advance. cbv zeta. intros Hrun.
  inv_bind Hrun. inv_bind Hrun. injection Hrun as <-. by destruct fc.
Qed.

Lemma Walker_remember_plan isAccount v tr :
  plan_of (Walker_remember isAccount v tr).1 = plan_of tr.
Proof.
  unfold Walker_remember. destruct isAccount; [|reflexivity].
  destruct (DecodeForStorage (a tr) v) as [acc [e|]]; [reflexivity|].
  cbn [a set_a].
  destruct (IsEmptyCodeHash acc && IsEmptyRoot acc); [reflexivity|].
  destruct (HasStorageSize acc); cbn [hb set_fieldSet a];
    destruct (hb_hash _ _) as [h1 [e|]]; try reflexivity; cbn [hb set_hb a];
    destruct (hb_hash _ _) as [h2 e2]; reflexivity.
Qed.

Lemma Walker_plan isAccount fc keyIdx' k v tr tr' err :
  Walker isAccount fc keyIdx' k v tr = Done (tr', err) -> plan_of tr' = plan_of tr.
Proof.
  unfold Walker. intros Hrun.
  inv_bind Hrun as [tr1 e1] Hsw. apply Walker_switch_plan in Hsw.
  destruct e1; [by injection Hrun as <- <-|].
  destruct (0 <? len v); [|by injection Hrun as <- <-].
  inv_bind Hrun as tr2 Hadv. apply Walker_advance_plan in Hadv.
  inv_bind Hrun as [tr3 e3] Hstep.
  assert (plan_of tr3 = plan_of tr2) as E.
  { destruct (0 <? len _); [by apply genStructStep_plan in Hstep | by injection Hstep as <- <-]. }
  destruct e3; [injection Hrun as <- <-; congruence|].
  destruct fc.
  - injection Hrun as <- <-. cbn. unfold plan_of in *. cbn. congruence.
  - pose proof (Walker_remember_plan isAccount v (set_fromCache false tr3)) as Hrem.
    destruct (Walker_remember _ _ _) as [tr4 e4]. injection Hrun as <- <-.
    cbn in Hrem. unfold plan_of in *. cbn in *. congruence.
Qed.

Lemma WalkerAccounts_keeps_plan : keeps_plan WalkerAccounts.
Proof. intros idx k v fc tr tr' err. apply Walker_plan. Qed.

Lemma WalkerStorage_keeps_plan : keeps_plan WalkerStorage.
Proof. intros idx k v fc tr tr' err. apply Walker_plan. Qed.

End BuilderFrame.

(** ** The walk and the orchestrator *)

Section WalkTheorems.
Context `{Collaborators} `{KVStore}.

(** C2, amended. Every call that [MultiWalk2] makes to the walker with
    [fromCache = true] hands over a key whose nibbles past [extResolvePos]
    satisfy [HashOnly] of the range's resolve set; and when the chosen cache
    entry has a non-empty value and either its nibbles are fewer than
    [extResolvePos] or [HashOnly] is false on them, the iteration only moves
    the cache cursor with [Next]: no call is made and nothing else changes. *)
Theorem cache_hits_are_hash_only
    (walker : Z -> bytes -> bytes -> bool -> Resolver -> result (Resolver * option error)) :
  keeps_plan walker ->
  (forall fuel tr db blockNr bucket startkeys fixedbits tr' err calls,
      MultiWalk2 fuel tr db blockNr bucket startkeys fixedbits walker = Done (tr', err, calls) ->
      Forall (cache_hit_ok (plan_of tr)) calls)
  /\ (forall isAccountBucket s minKey ri req rs,
        index (reqIndices (w_tr s)) (w_rangeIdx s) = Some ri ->
        index (requests (w_tr s)) ri = Some req ->
        index (rss (w_tr s)) (w_rangeIdx s) = Some rs ->
        len (w_cacheV s) <> 0 ->
        (len (DecompressNibbles (default [] minKey)) < extResolvePos req
         \/ exists suffix,
              slice_from (DecompressNibbles (default [] minKey)) (extResolvePos req) = Some suffix
              /\ HashOnly rs suffix = false) ->
        dispatch walker isAccountBucket s true minKey
        = Done (Continue (set_cache (Next (w_cache s)) s))).
Proof.
  intros Hkeeps. split.
  - intros fuel tr db blockNr bucket startkeys fixedbits tr' err calls Hrun.
    unfold MultiWalk2 in Hrun. cbv zeta in Hrun.
    destruct (len startkeys =? 0); [injection Hrun as <- <- <-; constructor|].
    inv_bind Hrun. inv_bind Hrun.
    destruct (View db) as [tx|e]; [|injection Hrun as <- <- <-; constructor].
    destruct (tx_Bucket tx IntermediateTrieHashBucket) as [cb|];
      [|injection Hrun as <- <- <-; constructor].
    destruct (tx_Bucket tx bucket) as [b|]; [|injection Hrun as <- <- <-; constructor].
    inv_bind Hrun as [s' e'] Hloop. injection Hrun as <- <- <-.
    eapply (walkLoop_inv walker _ _ _ Hkeeps (plan_of tr)) in Hloop; [apply Hloop|].
    split; [reflexivity | constructor].
  - intros isAcc s minKey ri req rs Hri Hreq Hrs Hv Hdesc.
    unfold dispatch. cbn [negb]. cbv zeta.
    destruct (Z.eqb_spec (len (w_cacheV s)) 0); [contradiction|].
    rewrite Hri. cbn [must bind]. rewrite Hreq. cbn [must bind]. rewrite Hrs. cbn [must bind].
    destruct (Z.ltb_spec (len (DecompressNibbles (default [] minKey))) (extResolvePos req));
      [reflexivity|].
    destruct Hdesc as [?|(suffix & Hs & Hh)]; [lia|].
    rewrite Hs. cbn [must bind]. rewrite Hh. reflexivity.
Qed.

(** C4, amended. At a tombstone (a chosen cache entry with an empty value)
    the walker is called, with the main record and [fromCache = false],
    exactly when the bucket is the accounts bucket, [v] is non-empty and
    [k] equals [cacheK]. If that call (when made) returns no error, the
    iteration goes on: when [nextSubtree(cacheK)] exists both cursors are
    moved to it with [Seek]; when it does not, [cacheK, cacheV] become nil
    and the main cursor stays where it is. *)
Theorem tombstone_dispatch
    (walker : Z -> bytes -> bytes -> bool -> Resolver -> result (Resolver * option error))
    (isAccountBucket : bool) (s : WalkState) (minKey : option bytes) :
  len (w_cacheV s) = 0 ->
  (forall flow,
      dispatch walker isAccountBucket s true minKey = Done flow ->
      w_calls (flow_state flow)
      = w_calls s ++ (if tombstone_emits isAccountBucket s then [live_record s minKey] else []))
  /\ ((tombstone_emits isAccountBucket s = true ->
       exists tr', walker (w_rangeIdx s) (DecompressNibbles (default [] minKey)) (w_v s) false
                     (w_tr s) = Done (tr', None)) ->
      exists s',
        dispatch walker isAccountBucket s true minKey = Done (Continue s')
        /\ match nextSubtree (default [] (w_cacheK s)) with
           | Some next =>
               (w_c s', (w_k s', w_v s')) = Seek (w_c s) next
               /\ (w_cache s', (w_cacheK s', w_cacheV s')) = Seek (w_cache s) next
           | None =>
               (w_c s', (w_k s', w_v s')) = (w_c s, (w_k s, w_v s))
               /\ (w_cache s', (w_cacheK s', w_cacheV s')) = (w_cache s, (None, []))
           end).
Proof.
  intros Hv. unfold dispatch. cbn [negb]. cbv zeta. rewrite Hv. cbn [Z.eqb].
  fold (tombstone_emits isAccountBucket s).
  destruct (tombstone_emits isAccountBucket s) eqn:Hemit.
  - split.
    + intros flow Hrun. inv_bind Hrun as [s1 err] Hcall.
      assert (w_calls s1 = w_calls s ++ [live_record s minKey]) as Hc.
      { unfold callWalker in Hcall. cbv zeta in Hcall. cbn [em_keyIdx em_key] in Hcall.
        inv_bind Hcall as [tr' e] Hw. by injection Hcall as <- <-. }
      destruct err; injection Hrun as <-; [exact Hc|].
      unfold skipSubtree. destruct (nextSubtree _); exact Hc.
    + intros Hok. destruct (Hok eq_refl) as [tr' Hw].
      unfold callWalker. cbv zeta. cbn [em_keyIdx em_key]. rewrite Hw. cbn [bind].
      unfold skipSubtree. cbn [w_cacheK set_w_tr log_call].
      destruct (nextSubtree (default [] (w_cacheK s))) as [next|]; eexists;
        (split; [reflexivity|]); cbn.
      * by destruct (Seek (w_c s) next) as [? [? ?]], (Seek (w_cache s) next) as [? [? ?]].
      * split; reflexivity.
  - split.
    + intros flow Hrun. cbn [bind] in Hrun. injection Hrun as <-. rewrite app_nil_r.
      unfold skipSubtree. by destruct (nextSubtree _).
    + intros _. cbn [bind]. unfold skipSubtree.
      destruct (nextSubtree (default [] (w_cacheK s))) as [next|]; eexists;
        (split; [reflexivity|]); cbn.
      * by destruct (Seek (w_c s) next) as [? [? ?]], (Seek (w_cache s) next) as [? [? ?]].
      * split; reflexivity.
Qed.

(** C6, amended. When the transaction has no cache bucket, [MultiWalk2]
    returns nil at once: the walker is never called and the resolver is
    left as it was. *)
Theorem missing_cache_bucket_empty_walk
    (fuel : nat) (tr : Resolver) (db : BoltDB) (tx : Tx) (blockNr : Z) (bucket : BucketName)
    (startkeys : list bytes) (fixedbits : list Z) (fb : Z)
    (walker : Z -> bytes -> bytes -> bool -> Resolver -> result (Resolver * option error)) :
  View db = inl tx ->
  tx_Bucket tx IntermediateTrieHashBucket = None ->
  startkeys <> [] ->
  index fixedbits 0 = Some fb ->
  MultiWalk2 fuel tr db blockNr bucket startkeys fixedbits walker = Done (tr, None, []).
Proof.
  intros Hview Hcache Hsk Hfb. unfold MultiWalk2. cbv zeta.
  destruct startkeys as [|sk sks]; [contradiction|].
  assert ((len (sk :: sks) =? 0) = false) as -> by (apply Z.eqb_neq; unfold len; cbn; lia).
  rewrite Hfb. cbn [must bind index Z.leb Z.compare]. change (Z.to_nat 0) with 0%nat.
  cbn [lookup list_lookup must bind]. by rewrite Hview, Hcache.
Qed.

Lemma PrepareResolveParams_frame tr tr1 out :
  PrepareResolveParams tr = Done (tr1, out) ->
  hookLog tr1 = hookLog tr /\ world tr1 = world tr /\ hb tr1 = hb tr.
Proof.
  unfold PrepareResolveParams. cbv zeta. intros Hrun.
  destruct (len _ =? 0); [by injection Hrun as <- <-|].
  inv_bind Hrun as [reqs acc] Hloop. inv_bind Hrun. inv_bind Hrun. inv_bind Hrun.
  by injection Hrun as <- <-.
Qed.

Lemma RebuildTrie_after_planning (fuel : nat) (tr tr1 : Resolver) (out : list bytes * list Z)
    (db : Database) (blockNr : Z) (accounts historical : bool) :
  PrepareResolveParams tr = Done (tr1, out) ->
  (boltOf db = None ->
   exists e, RebuildTrie fuel tr db blockNr accounts historical = Done (tr1, None, Some e)
             /\ (db <> NilDatabase -> e = ErrOnlyBoltSupported))
  /\ (historical = true ->
      exists b e, RebuildTrie fuel tr db blockNr accounts historical = Done (tr1, b, Some e))
  /\ hookLog tr1 = hookLog tr /\ world tr1 = world tr.
Proof.
  intros Hplan. destruct out as [sks fbs].
  assert (forall b, boltOf db = None ->
            exists e, RebuildTrie fuel tr db blockNr accounts b = Done (tr1, None, Some e)
                      /\ (db <> NilDatabase -> e = ErrOnlyBoltSupported)) as Hnone.
  { intros b Hb. unfold RebuildTrie. rewrite Hplan. cbn [bind].
    destruct db as [|bo|inner|]; cbn [boltOf] in *.
    - eexists. split; [reflexivity|]. intros Hn. by destruct Hn.
    - rewrite Hb. eexists. split; reflexivity.
    - rewrite Hb. eexists. split; reflexivity.
    - eexists. split; reflexivity. }
  split; [apply Hnone|]. split.
  - intros ->. destruct (boltOf db) as [bdb|] eqn:Hb.
    + unfold RebuildTrie. rewrite Hplan. cbn [bind].
      destruct db as [|bo|inner|]; try discriminate; rewrite Hb;
        destruct (Update_CreateBucketIfNotExists bdb IntermediateTrieHashBucket) as [bdb' [e|]];
        eexists _, _; reflexivity.
    + destruct (Hnone true eq_refl) as (e & He & _). eauto.
  - apply PrepareResolveParams_frame in Hplan. tauto.
Qed.

(** C9. On requests that can be planned, [RebuildTrie] returns an error
    whenever [db] holds no bolt handle (the error that only bolt is
    supported, unless [db] is nil), and whenever historical resolution is
    asked for; in both cases the resolver is left as planning left it: no
    walk was made and the hook was not called. *)
Theorem RebuildTrie_refuses (fuel : nat) (tr : Resolver) (db : Database) (blockNr : Z)
    (accounts historical : bool) :
  is_int (topLevels tr) ->
  Forall wf_request (requests tr) ->
  first_index_ok tr ->
  exists tr1 out,
    PrepareResolveParams tr = Done (tr1, out)
    /\ hookLog tr1 = hookLog tr /\ world tr1 = world tr
    /\ (boltOf db = None ->
        exists e, RebuildTrie fuel tr db blockNr accounts historical = Done (tr1, None, Some e)
                  /\ (db <> NilDatabase -> e = ErrOnlyBoltSupported))
    /\ (historical = true ->
        exists b e, RebuildTrie fuel tr db blockNr accounts historical = Done (tr1, b, Some e)).
Proof.
  intros Htl Hwf Hfirst.
  destruct (PrepareResolveParams_returns tr Htl Hwf Hfirst) as (tr1 & out & Hplan).
  destruct (RebuildTrie_after_planning fuel tr tr1 out db blockNr accounts historical Hplan)
    as (Hnone & Hhist & Hlog & Hworld).
  exists tr1, out. repeat split; assumption.
Qed.

End WalkTheorems.

(** * The theorems at concrete inputs *)

Lemma nextSubtree_of_01ff :
  exists r, nextSubtree [x01; xff] = Some r
       /\ length r = 2%nat
       /\ Compare r [x01; xff] = 1
       /\ forall c, length c = 2%nat -> ~ (Compare [x01; xff] c = -1 /\ Compare c r = -1).
Proof. exact (nextSubtree_immediate_successor [x01; xff]). Defined.


Lemma keyIsBefore_on_storage_keys :
  keyIsBefore (Some (replicate 33 x00)) (Some (replicate 40 x00)) <> None
  /\ HashLength < len (replicate 33 x00)
  /\ take 32 (replicate 33 x00) = take 32 (replicate 40 x00)
  /\ HashLength + 8 <= len (replicate 40 x00).
Proof.
  assert (keyIsBefore (Some (replicate 33 x00)) (Some (replicate 40 x00)) <> None) as H1
    by (vm_compute; discriminate).
  assert (HashLength < len (replicate 33 x00)) as H2 by (vm_compute; reflexivity).
  assert (take 32 (replicate 33 x00) = take 32 (replicate 40 x00)) as H3 by reflexivity.
  split; [exact H1|]. split; [exact H2|]. split; [exact H3|].
  exact (proj1 keyIsBefore_bounds (replicate 33 x00) (replicate 40 x00) H1 H2 H3).
Defined.

(** C7, as stated, fails: for the prefix 1, 2 the start key is [12 00], not
    [pack [1; 2] = 12]. *)
Lemma startkey_is_zero_padded :
  exists tr', PrepareResolveParams tr_prefix12 = Done (tr', ([[x12; x00]], [8]))
  /\ [x12; x00] <> contract (mkRequest [] [x01; x02; x03] 2)
                   ++ pack (hexPrefix (mkRequest [] [x01; x02; x03] 2)).
Proof. eexists. split; [vm_compute; reflexivity | discriminate]. Qed.

Lemma plan_of_three_requests :
  exists tr',
    PrepareResolveParams tr_three
    = Done (tr', ([[x12; x00]; [xaa; x10]], [8; 12]))
    /\ reqIndices tr' = [0; 2]
    /\ rss tr' = [AddHex (AddHex (NewResolveSet 0) [x03]) [x04]; AddHex (NewResolveSet 0) [x02]].
Proof.
  assert (requests tr_three <> []) as H1 by discriminate.
  assert (is_int (topLevels tr_three)) as H2 by (unfold is_int; simpl; lia).
  assert (Forall wf_request (requests tr_three)) as H3.
  { repeat constructor; unfold len; simpl; lia. }
  assert (first_index_ok tr_three) as H4 by exact I.
  destruct (PrepareResolveParams_ranges tr_three H1 H2 H3 H4) as (tr' & Hrun & Hrss & Hidx & _).
  exists tr'. split; [exact Hrun|]. split; [exact Hidx | exact Hrss].
Defined.

Lemma plan_three_requests_twice :
  exists tr1 out,
    PrepareResolveParams tr_three = Done (tr1, out)
    /\ exists tr2, PrepareResolveParams tr1 = Done (tr2, out) /\ rss tr2 = rss tr1.
Proof.
  destruct (PrepareResolveParams tr_three) as [[tr1 out]| |] eqn:Hrun;
    [|vm_compute in Hrun; discriminate..].
  exists tr1, out. split; [reflexivity|].
  destruct (PrepareResolveParams_idempotent tr_three tr1 out Hrun) as (tr2 & Hrun2 & Hrss & _).
  exists tr2. split; assumption.
Defined.

Lemma Walker_on_storage_cache_hit :
  exists tr' err,
    Walker false true 0 (replicate 74 x01) [xaa] tr_storage = Done (tr', err)
    /\ succ tr' = [x01; x01].
Proof.
  assert (stepReturns) as H1 by (intros rs c s h d g; eexists; reflexivity).
  assert (0 < len [xaa]) as H2 by reflexivity.
  assert (Walker_switch 0 tr_storage = Done (tr_storage, None)) as H3 by reflexivity.
  assert (currentRequest tr_storage
          = Some (set_extResolvePos (mkRequest (replicate 40 x11) [x01; x02] 0) 80)) as H4
    by reflexivity.
  exact (Walker_sets_succ false true 0 (replicate 74 x01) [xaa] tr_storage tr_storage _
           H1 H2 H3 H4 ltac:(simpl; lia) ltac:(unfold walkerSkip, len; simpl; lia)).
Defined.

(** C2, as stated, fails: [HashOnly] is false on the nibbles of the tombstone
    [00], yet the iteration does not move the cache cursor with [Next] (to
    the child [00 05]); it seeks both cursors to [01], past the child and
    past the main record [00 01]. *)
Lemma tombstone_is_skipped_not_descended :
  exists rs,
    index (rss (w_tr s_tombstone00)) (w_rangeIdx s_tombstone00) = Some rs
    /\ HashOnly rs (DecompressNibbles [x00]) = false
    /\ exists s',
         loopBody WalkerAccounts true [[]] [0] 10 s_tombstone00 = Done (Continue s')
         /\ w_calls s' = []
         /\ (Next (w_cache s_tombstone00)).2.1 = Some [x00; x05]
         /\ w_cacheK s' = None
         /\ w_k s' = None.
Proof.
  eexists. split; [reflexivity|]. split; [reflexivity|].
  eexists. split; [vm_compute; reflexivity|]. repeat split.
Qed.

Lemma cached_subtree_walk :
  exists tr' calls,
    MultiWalk2 100 tr_path129 db_cached 0 AccountsBucket [[x12; x00]] [8] WalkerAccounts
    = Done (tr', None, calls)
    /\ Forall (cache_hit_ok (plan_of tr_path129)) calls
    /\ (em_fromCache <$> calls) = [false; true; false]
    /\ dispatch WalkerAccounts true s_on_path true (Some [x12; x33])
       = Done (Continue (set_cache (Next (w_cache s_on_path)) s_on_path)).
Proof.
  destruct (@cache_hits_are_hash_only MemCollaborators MemStore WalkerAccounts
              WalkerAccounts_keeps_plan) as [Hhits Hdesc].
  eexists _, _. split; [vm_compute; reflexivity|].
  split.
  { eapply (Hhits 100%nat tr_path129 db_cached 0 AccountsBucket [[x12; x00]] [8] _ None).
    vm_compute. reflexivity. }
  split; [reflexivity|].
  apply (Hdesc true s_on_path (Some [x12; x33]) 0
           (set_extResolvePos (mkRequest [] [x01; x02; x03] 2) 2)
           (AddHex (NewResolveSet 0) [x03])); try reflexivity.
  - vm_compute. discriminate.
  - right. exists [x03; x03]. split; reflexivity.
Defined.

(** C4, as stated, fails: [nextSubtree] of the tombstone [FF] does not exist,
    and neither cursor is moved by a seek: the cache key becomes nil and the
    main cursor stays at [FF 01]. *)
Lemma last_tombstone_seeks_nothing :
  nextSubtree (default [] (w_cacheK s_tombstoneFF)) = None
  /\ exists s',
       dispatch WalkerAccounts true s_tombstoneFF true (Some [xff]) = Done (Continue s')
       /\ w_c s' = w_c s_tombstoneFF
       /\ w_k s' = Some [xff; x01]
       /\ w_cache s' = w_cache s_tombstoneFF
       /\ w_cacheK s' = None.
Proof.
  split; [reflexivity|]. eexists. split; [vm_compute; reflexivity|]. repeat split.
Qed.

Lemma tombstone_of_live_account :
  exists s',
    dispatch WalkerAccounts true s_tombstone07 true (Some [x07]) = Done (Continue s')
    /\ (w_c s', (w_k s', w_v s')) = Seek (w_c s_tombstone07) [x08]
    /\ (w_cache s', (w_cacheK s', w_cacheV s')) = Seek (w_cache s_tombstone07) [x08]
    /\ w_calls s' = [live_record s_tombstone07 (Some [x07])]
    /\ w_k s' = Some [x09].
Proof.
  assert (len (w_cacheV s_tombstone07) = 0) as H1 by reflexivity.
  destruct (@tombstone_dispatch MemCollaborators MemStore WalkerAccounts true s_tombstone07
              (Some [x07]) H1)
    as [Hcalls Hskip].
  destruct Hskip as (s' & Hrun & Hseek).
  { intros _. eexists. vm_compute. reflexivity. }
  change (nextSubtree (default [] (w_cacheK s_tombstone07))) with (Some [x08]) in Hseek.
  destruct Hseek as [Hm Hc].
  exists s'. split; [exact Hrun|]. split; [exact Hm|]. split; [exact Hc|].
  split; [exact (Hcalls _ Hrun)|].
  change (Seek (w_c s_tombstone07) [x08]) with
    ({| cur_entries := [([x07], [x01]); ([x07; x01], [x01]); ([x09], [x02])]; cur_pos := 2 |},
     (Some [x09], [x02])) in Hm.
  by injection Hm.
Defined.

(** C6, as stated, fails: with the cache bucket missing the walk hands over
    nothing, while with an empty cache bucket it hands over the account. *)
Lemma missing_cache_is_not_empty_cache :
  MultiWalk2 10 tr_whole (db_one_account None) 0 AccountsBucket [[]] [0] WalkerAccounts
  = Done (tr_whole, None, [])
  /\ exists tr',
       MultiWalk2 10 tr_whole (db_one_account (Some [])) 0 AccountsBucket [[]] [0] WalkerAccounts
       = Done (tr', None, [{| em_keyIdx := 0; em_key := [x00; x01]; em_value := [x02];
                              em_fromCache := false |}]).
Proof. split; [reflexivity|]. eexists. vm_compute. reflexivity. Qed.

Lemma walk_without_cache_bucket :
  MultiWalk2 10 tr_whole (db_one_account None) 0 AccountsBucket [[]] [0] WalkerAccounts
  = Done (tr_whole, None, []).
Proof.
  exact (@missing_cache_bucket_empty_walk MemCollaborators MemStore 10 tr_whole (db_one_account None)
           (db_one_account None) 0 AccountsBucket [[]] [0] 0 WalkerAccounts
           eq_refl eq_refl ltac:(discriminate) eq_refl).
Defined.

Lemma rebuild_on_other_backend :
  exists tr1 out,
    PrepareResolveParams tr_three = Done (tr1, out)
    /\ hookLog tr1 = [] /\ world tr1 = O
    /\ RebuildTrie 10 tr_three OtherDatabase 0 true false
       = Done (tr1, None, Some ErrOnlyBoltSupported)
    /\ exists b e, RebuildTrie 10 tr_three (WithBolt (Some db_cached)) 0 true true
                   = Done (tr1, b, Some e).
Proof.
  assert (is_int (topLevels tr_three)) as H2 by (unfold is_int; simpl; lia).
  assert (Forall wf_request (requests tr_three)) as H3.
  { repeat constructor; unfold len; simpl; lia. }
  assert (first_index_ok tr_three) as H4 by exact I.
  destruct (@RebuildTrie_refuses MemCollaborators MemStore 10 tr_three
              (@OtherDatabase MemStore) 0 true false H2 H3 H4)
    as (tr1 & out & Hplan & Hlog & Hworld & Hnone & _).
  destruct (@RebuildTrie_refuses MemCollaborators MemStore 10 tr_three
              (@WithBolt MemStore (Some db_cached)) 0 true true H2 H3 H4)
    as (tr1' & out' & Hplan' & _ & _ & _ & Hhist).
  assert (tr1' = tr1) as -> by congruence.
  destruct (Hnone eq_refl) as (e & Hrun & He).
  rewrite (He ltac:(discriminate)) in Hrun.
  exists tr1, out. repeat split; try assumption. exact (Hhist eq_refl).
Defined.
